(** * quache: the sharded in-memory key-value engine (quache-go/core/core.go)

    A shallow embedding of the Go engine and of the snapshot format it
    writes, followed by the properties of the engine's specification.

    Conventions of the embedding.
    - Go [string] and [[]byte] are Rocq [string]s (sequences of 8-bit
      characters); [int64] is [Z] with the wrap-around written out; [float64]
      is IEEE 754 binary64 as specified by the Standard Library's [SpecFloat]
      ([prec = 53], [emax = 1024]); Go maps are [gmap]s.
    - [time.Now().UnixMilli()] is an explicit argument of every operation that
      reads the clock.
    - The file system is an explicit value threaded through [Flush], [ToDisk]
      and [NewKVStoreFromDisk].
    - A run-time panic is [None] in the option monad.
    - Every operation takes its shard lock for its whole body, so a
      sequential run of operations is what the embedding executes; the locks
      themselves are not modelled. *)

From stdpp Require Import gmap strings list fin_maps pretty sorting.
From Stdlib Require Import ZArith Ascii SpecFloat.

Local Open Scope Z_scope.

(** * Go library functions used by the engine *)

(** Bytes of a Go string, as numbers in [0, 256). *)
Definition bytes_of (s : string) : list Z :=
  (fun c => Z.of_N (Ascii.N_of_ascii c)) <$> String.list_ascii_of_string s.

Definition string_of_bytes (l : list Z) : string :=
  String.string_of_list_ascii ((fun b => Ascii.ascii_of_N (Z.to_N b)) <$> l).

(** ** hash/crc32 *)

Module crc32.

Definition IEEE : Z := 0xedb88320.

(** One step of the bit loop of [simpleMakeTable]. *)
Definition shift1 (poly crc : Z) : Z :=
  if Z.testbit crc 0 then Z.lxor (Z.shiftr crc 1) poly else Z.shiftr crc 1.

(** [simpleMakeTable(poly)[i]]. *)
Definition table_entry (poly i : Z) : Z :=
  Nat.iter 8 (shift1 poly) i.

(** The loop body of [simpleUpdate]:
    [crc = tab[byte(crc)^v] ^ (crc >> 8)]. *)
Definition update1 (poly crc v : Z) : Z :=
  Z.lxor (table_entry poly (Z.lxor (Z.land crc 0xff) v)) (Z.shiftr crc 8).

(** [simpleUpdate(crc, tab, p)]: [crc = ^crc; for v in p {..}; return ^crc],
    complement taken on 32 bits. *)
Definition update (poly crc : Z) (p : list Z) : Z :=
  Z.lxor (foldl (update1 poly) (Z.lxor crc 0xffffffff) p) 0xffffffff.

Definition ChecksumIEEE (data : string) : Z :=
  update IEEE 0 (bytes_of data).

End crc32.

(** ** encoding/hex *)

Module hex.

Definition hextable : list ascii := String.list_ascii_of_string "0123456789abcdef".

Definition digit (n : Z) : ascii :=
  default "0"%char (hextable !! Z.to_nat n).

(** [EncodeToString]: two lower-case digits per byte, high nibble first. *)
Fixpoint encode (src : list Z) : string :=
  match src with
  | [] => ""
  | v :: rest =>
      String (digit (Z.shiftr v 4)) (String (digit (Z.land v 0x0f)) (encode rest))
  end.

Definition EncodeToString (src : string) : string := encode (bytes_of src).

(** [fromHexChar]: digits and letters of either case. *)
Definition fromHexChar (c : ascii) : option Z :=
  let n := Z.of_N (Ascii.N_of_ascii c) in
  if (48 <=? n) && (n <=? 57) then Some (n - 48)
  else if (97 <=? n) && (n <=? 102) then Some (n - 97 + 10)
  else if (65 <=? n) && (n <=? 70) then Some (n - 65 + 10)
  else None.

(** [Decode]: pairs of digits; a character that is no digit is
    [InvalidByteError], a trailing single digit is [ErrLength]. The engine
    only forwards the message of the error. *)
Fixpoint decode (s : string) : string + list Z :=
  match s with
  | EmptyString => inr []
  | String a EmptyString =>
      match fromHexChar a with
      | Some _ => inl "encoding/hex: odd length hex string"%string
      | None => inl "encoding/hex: invalid byte"%string
      end
  | String a (String b rest) =>
      match fromHexChar a, fromHexChar b with
      | Some x, Some y =>
          match decode rest with
          | inr l => inr (Z.lor (Z.shiftl x 4) y :: l)
          | inl e => inl e
          end
      | _, _ => inl "encoding/hex: invalid byte"%string
      end
  end.

Definition DecodeString (s : string) : string + string :=
  match decode s with
  | inr l => inr (string_of_bytes l)
  | inl e => inl e
  end.

End hex.

(** ** crypto/md5 (RFC 1321) *)

Module md5.

Definition mask32 (x : Z) : Z := Z.land x 0xffffffff.

Definition rotl (x : Z) (n : Z) : Z :=
  mask32 (Z.lor (Z.shiftl x n) (Z.shiftr x (32 - n))).

Definition not32 (x : Z) : Z := Z.lxor x 0xffffffff.

Definition K : list Z :=
  [ 0xd76aa478; 0xe8c7b756; 0x242070db; 0xc1bdceee;
    0xf57c0faf; 0x4787c62a; 0xa8304613; 0xfd469501;
    0x698098d8; 0x8b44f7af; 0xffff5bb1; 0x895cd7be;
    0x6b901122; 0xfd987193; 0xa679438e; 0x49b40821;
    0xf61e2562; 0xc040b340; 0x265e5a51; 0xe9b6c7aa;
    0xd62f105d; 0x02441453; 0xd8a1e681; 0xe7d3fbc8;
    0x21e1cde6; 0xc33707d6; 0xf4d50d87; 0x455a14ed;
    0xa9e3e905; 0xfcefa3f8; 0x676f02d9; 0x8d2a4c8a;
    0xfffa3942; 0x8771f681; 0x6d9d6122; 0xfde5380c;
    0xa4beea44; 0x4bdecfa9; 0xf6bb4b60; 0xbebfbc70;
    0x289b7ec6; 0xeaa127fa; 0xd4ef3085; 0x04881d05;
    0xd9d4d039; 0xe6db99e5; 0x1fa27cf8; 0xc4ac5665;
    0xf4292244; 0x432aff97; 0xab9423a7; 0xfc93a039;
    0x655b59c3; 0x8f0ccc92; 0xffeff47d; 0x85845dd1;
    0x6fa87e4f; 0xfe2ce6e0; 0xa3014314; 0x4e0811a1;
    0xf7537e82; 0xbd3af235; 0x2ad7d2bb; 0xeb86d391 ].

Definition S : list Z :=
  [ 7; 12; 17; 22; 7; 12; 17; 22; 7; 12; 17; 22; 7; 12; 17; 22;
    5; 9; 14; 20; 5; 9; 14; 20; 5; 9; 14; 20; 5; 9; 14; 20;
    4; 11; 16; 23; 4; 11; 16; 23; 4; 11; 16; 23; 4; 11; 16; 23;
    6; 10; 15; 21; 6; 10; 15; 21; 6; 10; 15; 21; 6; 10; 15; 21 ].

Record digest := Digest { dA : Z; dB : Z; dC : Z; dD : Z }.

Definition init : digest :=
  Digest 0x67452301 0xefcdab89 0x98badcfe 0x10325476.

(** Little-endian 32-bit word of four bytes. *)
Definition word_of (b0 b1 b2 b3 : Z) : Z :=
  Z.lor b0 (Z.lor (Z.shiftl b1 8) (Z.lor (Z.shiftl b2 16) (Z.shiftl b3 24))).

Fixpoint words_of (l : list Z) : list Z :=
  match l with
  | b0 :: b1 :: b2 :: b3 :: rest => word_of b0 b1 b2 b3 :: words_of rest
  | _ => []
  end.

(** Round [i] of the block function on the 16 words [M]. *)
Definition round (M : list Z) (st : digest) (i : nat) : digest :=
  let '(Digest a b c d) := st in
  let iz := Z.of_nat i in
  let '(f, g) :=
    if iz <? 16 then (Z.lor (Z.land b c) (Z.land (not32 b) d), iz)
    else if iz <? 32 then
      (Z.lor (Z.land d b) (Z.land (not32 d) c), (5 * iz + 1) mod 16)
    else if iz <? 48 then (Z.lxor b (Z.lxor c d), (3 * iz + 5) mod 16)
    else (Z.lxor c (Z.lor b (not32 d)), (7 * iz) mod 16) in
  let f' := mask32 (f + a + default 0 (K !! i) + default 0 (M !! Z.to_nat g)) in
  Digest d (mask32 (b + rotl f' (default 0 (S !! i)))) b c.

Definition block (st : digest) (M : list Z) : digest :=
  let '(Digest a b c d) := foldl (round M) st (seq 0 64) in
  Digest (mask32 (dA st + a)) (mask32 (dB st + b))
         (mask32 (dC st + c)) (mask32 (dD st + d)).

(** The message followed by [0x80], zeros up to 56 modulo 64, and the
    length in bits as 8 little-endian bytes. *)
Definition pad (msg : list Z) : list Z :=
  let len := Z.of_nat (length msg) in
  let zeros := Z.to_nat ((55 - len) mod 64) in
  let bits := 8 * len in
  msg ++ [0x80] ++ replicate zeros 0
      ++ ((fun i => Z.land (Z.shiftr bits (8 * Z.of_nat i)) 0xff) <$> seq 0 8).

Fixpoint blocks (fuel : nat) (st : digest) (ws : list Z) : digest :=
  match fuel, ws with
  | Datatypes.S fuel', _ :: _ => blocks fuel' (block st (take 16 ws)) (drop 16 ws)
  | _, _ => st
  end.

Definition le32 (w : Z) : list Z :=
  [ Z.land w 0xff; Z.land (Z.shiftr w 8) 0xff;
    Z.land (Z.shiftr w 16) 0xff; Z.land (Z.shiftr w 24) 0xff ].

Definition sum_bytes (msg : list Z) : list Z :=
  let ws := words_of (pad msg) in
  let '(Digest a b c d) := blocks (length ws) init ws in
  le32 a ++ le32 b ++ le32 c ++ le32 d.

(** [md5.Sum(data)], the 16 bytes of the digest. *)
Definition Sum (data : string) : string := string_of_bytes (sum_bytes (bytes_of data)).

End md5.

(** ** strings.Split(s, "\n") and strings.Join(_, "\n") *)

Definition nl : ascii := Ascii.ascii_of_nat 10.

(** [strings.Split(s, "\n")]: the pieces between newlines; never empty. *)
Fixpoint strings_Split (s : string) : list string :=
  match s with
  | EmptyString => [EmptyString]
  | String c rest =>
      if decide (c = nl) then EmptyString :: strings_Split rest
      else match strings_Split rest with
           | piece :: pieces => String c piece :: pieces
           | [] => [String c EmptyString]
           end
  end.

(** [strings.Join(elems, "\n")]. *)
Fixpoint strings_Join (elems : list string) : string :=
  match elems with
  | [] => EmptyString
  | [e] => e
  | e :: rest => e +:+ String nl (strings_Join rest)
  end.

(** * Numbers *)

(** ** int64 *)

Definition int64_wrap (z : Z) : Z := (z + 2 ^ 63) mod 2 ^ 64 - 2 ^ 63.

(** [a - b] on [int64]. *)
Definition int64_sub (a b : Z) : Z := int64_wrap (a - b).

(** ** float64 *)

Abbreviation float64 := spec_float.

Module f64.

Definition prec : Z := 53.
Definition emax : Z := 1024.

(** The conversion [float64(n)] of an integer, to nearest, ties to even. *)
Definition of_int (n : Z) : float64 := binary_normalize prec emax n 0 false.

Definition zero : float64 := S754_zero false.

Definition mul (x y : float64) : float64 := SFmul prec emax x y.

(** [x > y] and [x <= y]. *)
Definition gtb (x y : float64) : bool := SFltb y x.
Definition leb (x y : float64) : bool := SFleb x y.

End f64.

(** * Data model *)

(** Values of Go's [any] that the engine is handed: what a caller may [Put]
    and what [encoding/json] decodes into an [any]. *)
Unset Elimination Schemes.
Inductive any : Type :=
  | Nil
  | Bool (b : bool)
  | Int (n : Z)
  | Float64 (f : float64)
  | String_ (s : string)
  | Slice (l : list any)
  | Map (m : gmap string any).
Set Elimination Schemes.

Record ShardEntry := {
  Value : any;
  Timestamp : Z;
  Ttl : float64
}.

Record Shard := {
  Data : gmap string ShardEntry
}.

(** [shardDimensions] is a Go [map[int]int]; indices and lengths are never
    negative, so both are [nat] here. *)
Record KVStore := {
  Shards : list Shard;
  Directory : string;
  shardDimensions : gmap nat nat
}.

(** The [error] values that leave the engine. [errorString] carries the
    message of an error of [encoding/json] or [os] that is handed on as is. *)
Inductive error :=
  | KeyNotFoundError (key : string)
  | ExpiredEntryError (key : string) (elapsed : Z) (ttl : float64)
  | UnloadableShardError (shardNum : nat) (errorType : string)
  | errorString (msg : string).

Inductive result (A : Type) :=
  | Ok (a : A)
  | Err (e : error).
Arguments Ok {A} a.
Arguments Err {A} e.

(** * The file system *)

(** A file is named by its directory and its base name: [path.Join(dir, base)]
    is the pair. [os.WriteFile] creates or replaces a file of an existing
    directory and fails otherwise. *)
Record FS := {
  fs_dirs : gset string;
  fs_files : gmap (string * string) string
}.

Definition path_Join (dir base : string) : string * string := (dir, base).

(** [os.Stat(name)] does not answer [ErrNotExist]. *)
Definition os_exists (fs : FS) (name : string * string) : bool :=
  bool_decide (is_Some (fs_files fs !! name)).

Definition os_ReadFile (fs : FS) (name : string * string) : string + string :=
  match fs_files fs !! name with
  | Some content => inr content
  | None => inl "no such file or directory"%string
  end.

Definition os_WriteFile (fs : FS) (name : string * string) (data : string)
  : string + FS :=
  if decide (name.1 ∈ fs_dirs fs)
  then inr {| fs_dirs := fs_dirs fs; fs_files := <[name := data]> (fs_files fs) |}
  else inl "no such file or directory"%string.

(** [fmt.Sprintf("shard-%d", i)] *)
Definition shard_file (i : nat) : string := "shard-" +:+ pretty i.

(** * The engine *)

Definition NewShardEntry (now : Z) (value : any) (ttl : float64) : ShardEntry :=
  {| Value := value; Timestamp := now; Ttl := ttl |}.

Definition NewShard : Shard := {| Data := ∅ |}.

Definition NewShardWithData (data : gmap string ShardEntry) : Shard :=
  {| Data := data |}.

Definition NewKVStore (numShards : nat) (directory : string) : KVStore :=
  foldl (fun c i =>
           {| Shards := Shards c ++ [NewShard];
              Directory := Directory c;
              shardDimensions := <[i := 0%nat]> (shardDimensions c) |})
        {| Shards := []; Directory := directory; shardDimensions := ∅ |}
        (seq 0 numShards).

(** [Evict]: the loop deletes from the map it ranges over; an entry is
    visited at most once and a deleted one is not visited again. *)
Definition Evict (currentTime : Z) (s : Shard) : Shard :=
  if decide (size (Data s) = 0%nat) then s
  else {| Data :=
            map_fold (fun key value data =>
                        if f64.gtb (Ttl value) f64.zero
                           && f64.gtb (f64.of_int (int64_sub currentTime (Timestamp value)))
                                      (Ttl value)
                        then delete key data else data)
                     (Data s) (Data s) |}.

Definition getLength (s : Shard) : nat := size (Data s).

(** [int(hash) % len(kv.Shards)], on a 64-bit [int]; the division panics
    when there is no shard. *)
Definition findShard (kv : KVStore) (key : string) : option nat :=
  let hash := crc32.ChecksumIEEE key in
  if decide (length (Shards kv) = 0%nat) then None
  else Some (Z.to_nat (Z.rem hash (Z.of_nat (length (Shards kv))))).

Definition set_shard (kv : KVStore) (i : nat) (s : Shard) : KVStore :=
  {| Shards := <[i := s]> (Shards kv);
     Directory := Directory kv;
     shardDimensions := shardDimensions kv |}.

Definition Put (now : Z) (kv : KVStore) (key : string) (value : any)
    (ttl : option float64) : option KVStore :=
  let actualTtl :=
    match ttl with
    | None => f64.of_int (-1)
    | Some t => f64.mul t (f64.of_int 1000)
    end in
  shardIdx ← findShard kv key;
  s ← Shards kv !! shardIdx;
  Some (set_shard kv shardIdx
          {| Data := <[key := NewShardEntry now value actualTtl]> (Data s) |}).

Definition Get (now : Z) (kv : KVStore) (key : string) : option (result any) :=
  shardIdx ← findShard kv key;
  s ← Shards kv !! shardIdx;
  Some match Data s !! key with
       | Some val =>
           if f64.gtb (Ttl val) f64.zero
              && f64.gtb (f64.of_int (int64_sub now (Timestamp val))) (Ttl val)
           then Err (ExpiredEntryError key (int64_sub now (Timestamp val)) (Ttl val))
           else Ok (Value val)
       | None => Err (KeyNotFoundError key)
       end.

Definition Delete (kv : KVStore) (key : string) : option KVStore :=
  shardIdx ← findShard kv key;
  s ← Shards kv !! shardIdx;
  Some (set_shard kv shardIdx {| Data := delete key (Data s) |}).

(** [Cleanup]: every [Evict] reads the clock itself; [clock i] is the
    reading of the call on shard [i]. *)
Definition Cleanup (clock : nat -> Z) (kv : KVStore) : KVStore :=
  {| Shards := imap (fun i s => Evict (clock i) s) (Shards kv);
     Directory := Directory kv;
     shardDimensions := shardDimensions kv |}.

(** ** The texts of the errors

    The [Error] methods of the three error types; an error of a library is
    its text. [fmt_f] is the verb [%f] of [fmt] at a [float64]. *)
Definition Error (fmt_f : float64 -> string) (e : error) : string :=
  match e with
  | KeyNotFoundError key => "Key " +:+ key +:+ " not found"
  | ExpiredEntryError key elapsed ttl =>
      "Key " +:+ key +:+ " is expired (requested TTL: " +:+ fmt_f ttl
      +:+ ", elapsed: " +:+ pretty elapsed +:+ ")"
  | UnloadableShardError shardNum errorType =>
      "Shard " +:+ pretty shardNum +:+ " could not be loaded because " +:+ errorType
  | errorString msg => msg
  end.

(** * The HTTP handlers

    A handler is given the store, the clock reading of the engine call it
    makes, and what it reads of the request: the body for [POST], the path
    value [key] for [GET] and [DELETE]. It returns the calls it makes on its
    [http.ResponseWriter], in order, and for [POST] and [DELETE] the store
    as the engine call leaves it. [None] is a panic of the engine call. *)
Module server.

Record SetRequest := { Key : string; Value : any; Ttl : option float64 }.

Inductive call :=
  | http_Error (error : string) (code : nat)
  | Header_Set (key value : string)
  | WriteHeader (statusCode : nat)
  | Write (data : string).

Definition StatusOK : nat := 200.
Definition StatusCreated : nat := 201.
Definition StatusNoContent : nat := 204.
Definition StatusBadRequest : nat := 400.
Definition StatusNotFound : nat := 404.
Definition StatusInternalServerError : nat := 500.

Definition empty_key : string := "Provided key was empty, please provide a non-empty key".

(** The white space of [strings.TrimSpace]: tab, line feed, vertical tab,
    form feed, carriage return and space, and in UTF-8 the runes U+0085,
    U+00A0, U+1680, U+2000 to U+200A, U+2028, U+2029, U+202F, U+205F and
    U+3000. [space_width b] is the number of bytes of the white-space rune
    that [b] starts with, if it starts with one. *)
Definition asciiSpace (c : Z) : bool := bool_decide (c ∈ [9; 10; 11; 12; 13; 32]).

Definition space_width (b : list Z) : option nat :=
  match b with
  | [] => None
  | c :: rest =>
      if asciiSpace c then Some 1%nat
      else
        match c, rest with
        | 194, d :: _ => if bool_decide (d = 133 \/ d = 160) then Some 2%nat else None
        | 225, 154 :: 128 :: _ => Some 3%nat
        | 226, 128 :: d :: _ =>
            if bool_decide (128 <= d <= 138 \/ d = 168 \/ d = 169 \/ d = 175)
            then Some 3%nat else None
        | 226, 129 :: 159 :: _ => Some 3%nat
        | 227, 128 :: 128 :: _ => Some 3%nat
        | _, _ => None
        end
  end.

(** The bytes left when the leading white space is cut off; [skip] counts
    the bytes still to drop of the rune being cut. *)
Fixpoint TrimLeft (skip : nat) (b : list Z) : list Z :=
  match b with
  | [] => []
  | _ :: rest =>
      match skip with
      | S k => TrimLeft k rest
      | O =>
          match space_width b with
          | Some w => TrimLeft (w - 1) rest
          | None => b
          end
      end
  end.

(** [strings.TrimSpace(key) == ""]: the key is white space from end to end.
    What is left after the leading white space starts with a rune that is
    no white space, and cutting the trailing white space does not reach it,
    so the test on the left alone decides. *)
Definition TrimSpace_is_empty (key : string) : bool :=
  bool_decide (TrimLeft 0 (bytes_of key) = []).

Section Handlers.

(** [decoder.Decode(&req)] with [DisallowUnknownFields], on the body;
    [json.Marshal(GetResponse{Value: val})]; and [%f]. An error is its
    text. *)
Variable json_Decode : string -> string + SetRequest.
Variable json_Marshal : any -> string + string.
Variable fmt_f : float64 -> string.

Definition handlePost (now : Z) (kvStore : KVStore) (body : string)
    : option (KVStore * list call) :=
  match json_Decode body with
  | inl err =>
      Some (kvStore,
            [http_Error ("An error occurred while reading your request: " +:+ err)
               StatusBadRequest])
  | inr req =>
      kv ← Put now kvStore (Key req) (Value req) (Ttl req);
      Some (kv, [WriteHeader StatusCreated])
  end.

(** After the answer 500 for a value that cannot be serialized the handler
    does not return: it goes on to [WriteHeader(200)] and [Write(nil)]. *)
Definition handleGet (now : Z) (kvStore : KVStore) (key : string) : option (list call) :=
  if TrimSpace_is_empty key then Some [http_Error empty_key StatusBadRequest]
  else
    r ← Get now kvStore key;
    Some match r with
         | Err err => [http_Error (Error fmt_f err) StatusNotFound]
         | Ok val =>
             Header_Set "Content-Type" "application/json" ::
             match json_Marshal val with
             | inl err =>
                 [http_Error err StatusInternalServerError;
                  WriteHeader StatusOK; Write EmptyString]
             | inr j => [WriteHeader StatusOK; Write j]
             end
         end.

Definition handleDelete (kvStore : KVStore) (key : string)
    : option (KVStore * list call) :=
  if decide (key = EmptyString) then Some (kvStore, [http_Error empty_key StatusBadRequest])
  else
    kv ← Delete kvStore key;
    Some (kv, [WriteHeader StatusNoContent]).

End Handlers.

End server.

(** ** encoding/json, for the texts of small snapshots

    An executable codec for a fragment of what [json.Marshal] and
    [json.Unmarshal] do at the type [map[string]*ShardEntry]: keys and string
    values of plain characters, [nil], booleans, integers, and floats whose
    value is an integer below [2^53]. [Marshal] answers with an error outside
    the fragment; [Unmarshal] reads the texts that [Marshal] writes. The
    engine itself is stated over any codec (section [Snapshots]); this one
    runs its examples. *)

Module refjson.

Definition unsupported : string := "json: unsupported by the reference codec".
Definition syntax_error : string := "json: syntax error".

#[global] Instance spec_float_eq_dec : EqDecision spec_float.
Proof. solve_decision. Defined.

(** Characters that [json.Marshal] writes as they are: printable ASCII but
    the quote, the backslash and the characters it escapes for HTML. *)
Definition plain_char (c : ascii) : bool :=
  let n := Z.of_N (N_of_ascii c) in
  (32 <=? n) && (n <? 127) && negb (bool_decide (n ∈ [34; 38; 60; 62; 92])).

Fixpoint plain (s : string) : bool :=
  match s with
  | EmptyString => true
  | String c rest => plain_char c && plain rest
  end.

Definition quote : string := String (ascii_of_nat 34) EmptyString.

Definition encode_string (s : string) : option string :=
  if plain s then Some (quote +:+ s +:+ quote) else None.

(** The integer a float stands for, when it is one that [of_int] gives back. *)
Definition float_int (f : float64) : option Z :=
  let n :=
    match f with
    | S754_zero false => Some 0
    | S754_finite sg m e =>
        let v := if 0 <=? e then Z.pos m * 2 ^ e else Z.pos m / 2 ^ (- e) in
        Some (if sg then - v else v)
    | _ => None
    end in
  n' ← n;
  if decide (Z.abs n' < 2 ^ 53 /\ f64.of_int n' = f) then Some n' else None.

Definition encode_float (f : float64) : option string := pretty <$> float_int f.

Definition encode_any (v : any) : option string :=
  match v with
  | Nil => Some "null"
  | Bool true => Some "true"
  | Bool false => Some "false"
  | Int n => Some (pretty n)
  | Float64 f => encode_float f
  | String_ s => encode_string s
  | Slice _ | Map _ => None
  end.

Definition encode_entry (e : ShardEntry) : option string :=
  v ← encode_any (Value e);
  t ← encode_float (Ttl e);
  Some ("{" +:+ quote +:+ "value" +:+ quote +:+ ":" +:+ v
        +:+ "," +:+ quote +:+ "timestamp" +:+ quote +:+ ":" +:+ pretty (Timestamp e)
        +:+ "," +:+ quote +:+ "ttl" +:+ quote +:+ ":" +:+ t +:+ "}").

Fixpoint encode_members (l : list (string * ShardEntry)) : option string :=
  match l with
  | [] => Some ""
  | (k, e) :: rest =>
      k' ← encode_string k;
      e' ← encode_entry e;
      rest' ← encode_members rest;
      Some (k' +:+ ":" +:+ e' +:+ (if rest is [] then "" else ",") +:+ rest')
  end.

Definition key_le (x y : string * ShardEntry) : Prop := String.le x.1 y.1.

#[global] Instance key_le_dec : RelDecision key_le.
Proof. intros x y. unfold key_le. apply _. Defined.

(** [json.Marshal]: the members in the order of their keys. *)
Definition Marshal (m : gmap string ShardEntry) : string + string :=
  match encode_members (merge_sort key_le (map_to_list m)) with
  | Some members => inr ("{" +:+ members +:+ "}")
  | None => inl unsupported
  end.

(** *** Reading *)

Fixpoint skip (lit s : string) : option string :=
  match lit, s with
  | EmptyString, _ => Some s
  | String a lit', String b s' => if decide (a = b) then skip lit' s' else None
  | _, _ => None
  end.

(** The characters up to the closing quote, and what follows it. *)
Fixpoint read_string_body (s : string) : option (string * string) :=
  match s with
  | EmptyString => None
  | String c rest =>
      if decide (c = ascii_of_nat 34) then Some (EmptyString, rest)
      else if plain_char c then
        '(body, rest') ← read_string_body rest; Some (String c body, rest')
      else None
  end.

Definition read_string (s : string) : option (string * string) :=
  s' ← skip quote s; read_string_body s'.

Definition digit_of (c : ascii) : option Z :=
  let n := Z.of_N (N_of_ascii c) in
  if (48 <=? n) && (n <=? 57) then Some (n - 48) else None.

Fixpoint read_digits (acc : Z) (s : string) : Z * string :=
  match s with
  | EmptyString => (acc, s)
  | String c rest =>
      match digit_of c with
      | Some d => read_digits (10 * acc + d) rest
      | None => (acc, s)
      end
  end.

Definition read_nat (s : string) : option (Z * string) :=
  match s with
  | String c _ => if digit_of c is Some _ then Some (read_digits 0 s) else None
  | EmptyString => None
  end.

Definition read_int (s : string) : option (Z * string) :=
  match skip "-" s with
  | Some s' => '(n, rest) ← read_nat s'; Some (- n, rest)
  | None => read_nat s
  end.

Definition read_any (s : string) : option (any * string) :=
  match s with
  | String "n" _ => rest ← skip "null" s; Some (Nil, rest)
  | String "t" _ => rest ← skip "true" s; Some (Bool true, rest)
  | String "f" _ => rest ← skip "false" s; Some (Bool false, rest)
  | String c _ =>
      if decide (c = ascii_of_nat 34)
      then '(v, rest) ← read_string s; Some (String_ v, rest)
      else '(n, rest) ← read_int s; Some (Float64 (f64.of_int n), rest)
  | EmptyString => None
  end.

Definition read_entry (s : string) : option (ShardEntry * string) :=
  s ← skip ("{" +:+ quote +:+ "value" +:+ quote +:+ ":") s;
  '(v, s) ← read_any s;
  s ← skip ("," +:+ quote +:+ "timestamp" +:+ quote +:+ ":") s;
  '(ts, s) ← read_int s;
  s ← skip ("," +:+ quote +:+ "ttl" +:+ quote +:+ ":") s;
  '(ttl, s) ← read_int s;
  s ← skip "}" s;
  Some ({| Value := v; Timestamp := ts; Ttl := f64.of_int ttl |}, s).

Fixpoint read_members (fuel : nat) (s : string) (m : gmap string ShardEntry)
    : option (gmap string ShardEntry) :=
  match fuel with
  | O => None
  | S fuel' =>
      '(k, s) ← read_string s;
      s ← skip ":" s;
      '(e, s) ← read_entry s;
      match s with
      | String "," s' => read_members fuel' s' (<[k := e]> m)
      | String "}" EmptyString => Some (<[k := e]> m)
      | _ => None
      end
  end.

Definition Unmarshal (data : string) : string + gmap string ShardEntry :=
  match data with
  | String "{" (String "}" EmptyString) => inr ∅
  | String "{" rest =>
      match read_members (String.length rest) rest ∅ with
      | Some m => inr m
      | None => inl syntax_error
      end
  | _ => inl syntax_error
  end.

End refjson.


(** * Snapshots *)



Definition hash_mismatch : string :=
  "the computed hash does not match the integrity hash reported in the file".

(** ** The events of the workers

    What the [select] of a worker receives, in the order it receives it: a
    signal on [done], the cancellation of [ctx], or a tick of its ticker.
    A tick of the cleanup worker comes with the clock readings of the
    [Evict]s of its [Cleanup]. The outcome of a worker is the store and the
    disk it leaves, the lines it logs, and whether it has returned; it has
    not when it waits for an event that the list does not hold. *)
Inductive event (T : Type) :=
  | done_signal
  | ctx_Done
  | ticker_C (t : T).

Arguments done_signal {T}.
Arguments ctx_Done {T}.
Arguments ticker_C {T} t.

Section Snapshots.

(** [encoding/json] at the type [map[string]*ShardEntry]; either answers
    with the message of an error ([inl]) or with its result ([inr]). *)
Variable json_Marshal : gmap string ShardEntry -> string + string.
Variable json_Unmarshal : string -> string + gmap string ShardEntry.

Definition Flush (s : Shard) (fileName : string * string) (fs : FS) : result FS :=
  if decide (size (Data s) = 0%nat) then Ok fs
  else
    match json_Marshal (Data s) with
    | inl err => Err (errorString err)
    | inr data =>
        let hash := md5.Sum data in
        let encoded := hex.EncodeToString hash in
        let toWrite := data +:+ String nl EmptyString +:+ encoded in
        match os_WriteFile fs fileName toWrite with
        | inl err => Err (errorString err)
        | inr fs' => Ok fs'
        end
    end.

(** The loop of [ToDisk] from shard [i] on; [shards] are the shards not yet
    visited. *)
Fixpoint ToDisk_loop (directory : string) (i : nat) (shards : list Shard)
    (dims : gmap nat nat) (fs : FS) : gmap nat nat * FS * option error :=
  match shards with
  | [] => (dims, fs, None)
  | s :: rest =>
      let fileName := path_Join directory (shard_file i) in
      let shardLength := getLength s in
      if decide (dims !!! i = shardLength)
      then ToDisk_loop directory (S i) rest dims fs
      else
        let dims' := <[i := shardLength]> dims in
        match Flush s fileName fs with
        | Err err => (dims', fs, Some err)
        | Ok fs' => ToDisk_loop directory (S i) rest dims' fs'
        end
  end.

Definition ToDisk (kv : KVStore) (fs : FS) : KVStore * FS * option error :=
  let '(dims, fs', err) :=
    ToDisk_loop (Directory kv) 0 (Shards kv) (shardDimensions kv) fs in
  ({| Shards := Shards kv; Directory := Directory kv; shardDimensions := dims |},
   fs', err).

(** The loop of [NewKVStoreFromDisk] over the indices still to load. *)
Fixpoint NewKVStoreFromDisk_loop (fs : FS) (indices : list nat) (c : KVStore)
    : result KVStore :=
  match indices with
  | [] => Ok c
  | i :: rest =>
      let fileName := path_Join (Directory c) (shard_file i) in
      if negb (os_exists fs fileName) then
        NewKVStoreFromDisk_loop fs rest
          {| Shards := Shards c ++ [NewShard];
             Directory := Directory c;
             shardDimensions := <[i := 0%nat]> (shardDimensions c) |}
      else
        match os_ReadFile fs fileName with
        | inl err => Err (UnloadableShardError i err)
        | inr bData =>
            let lines := strings_Split bData in
            let integrityHashS := default EmptyString (last lines) in
            match hex.DecodeString integrityHashS with
            | inl err => Err (UnloadableShardError i err)
            | inr integrityHash =>
                let mapData := strings_Join (take (length lines - 1) lines) in
                let actualHash := md5.Sum mapData in
                if negb (bool_decide (actualHash = integrityHash))
                then Err (UnloadableShardError i hash_mismatch)
                else
                  match json_Unmarshal mapData with
                  | inl err => Err (UnloadableShardError i err)
                  | inr data =>
                      NewKVStoreFromDisk_loop fs rest
                        {| Shards := Shards c ++ [NewShardWithData data];
                           Directory := Directory c;
                           shardDimensions :=
                             <[i := size data]> (shardDimensions c) |}
                  end
            end
        end
  end.

Definition NewKVStoreFromDisk (numShards : nat) (directory : string) (fs : FS)
    : result KVStore :=
  NewKVStoreFromDisk_loop fs (seq 0 numShards)
    {| Shards := []; Directory := directory; shardDimensions := ∅ |}.

(** [NewKVStoreFromDisk] for any answers of the two calls it makes on the
    file system: [IsNotExist name] tells whether the error of
    [os.Stat(name)] is [os.ErrNotExist], and [ReadFile name] is what
    [os.ReadFile(name)] returns, the text of an error or the bytes. On a
    disk [fs] the answers are [negb (os_exists fs name)] and
    [os_ReadFile fs name]; here they are free, so that a name on which
    [os.Stat] fails for another reason and a file that cannot be read are
    covered. *)
Fixpoint NewKVStoreFromDisk_loop_io (IsNotExist : string * string -> bool)
    (ReadFile : string * string -> string + string) (indices : list nat) (c : KVStore)
    : result KVStore :=
  match indices with
  | [] => Ok c
  | i :: rest =>
      let fileName := path_Join (Directory c) (shard_file i) in
      if IsNotExist fileName then
        NewKVStoreFromDisk_loop_io IsNotExist ReadFile rest
          {| Shards := Shards c ++ [NewShard];
             Directory := Directory c;
             shardDimensions := <[i := 0%nat]> (shardDimensions c) |}
      else
        match ReadFile fileName with
        | inl err => Err (UnloadableShardError i err)
        | inr bData =>
            let lines := strings_Split bData in
            let integrityHashS := default EmptyString (last lines) in
            match hex.DecodeString integrityHashS with
            | inl err => Err (UnloadableShardError i err)
            | inr integrityHash =>
                let mapData := strings_Join (take (length lines - 1) lines) in
                let actualHash := md5.Sum mapData in
                if negb (bool_decide (actualHash = integrityHash))
                then Err (UnloadableShardError i hash_mismatch)
                else
                  match json_Unmarshal mapData with
                  | inl err => Err (UnloadableShardError i err)
                  | inr data =>
                      NewKVStoreFromDisk_loop_io IsNotExist ReadFile rest
                        {| Shards := Shards c ++ [NewShardWithData data];
                           Directory := Directory c;
                           shardDimensions :=
                             <[i := size data]> (shardDimensions c) |}
                  end
            end
        end
  end.

Definition NewKVStoreFromDisk_io (IsNotExist : string * string -> bool)
    (ReadFile : string * string -> string + string) (numShards : nat) (directory : string)
    : result KVStore :=
  NewKVStoreFromDisk_loop_io IsNotExist ReadFile (seq 0 numShards)
    {| Shards := []; Directory := directory; shardDimensions := ∅ |}.

(** ** Runs of operations on one store and its directory *)

Inductive op :=
  | OpPut (now : Z) (key : string) (value : any) (ttl : option float64)
  | OpGet (now : Z) (key : string)
  | OpDelete (key : string)
  | OpCleanup (clock : nat -> Z)
  | OpToDisk.

Record world := { store : KVStore; disk : FS }.

Definition step (w : world) (o : op) : option world :=
  match o with
  | OpPut now key value ttl =>
      kv ← Put now (store w) key value ttl; Some {| store := kv; disk := disk w |}
  | OpGet now key => _ ← Get now (store w) key; Some w
  | OpDelete key =>
      kv ← Delete (store w) key; Some {| store := kv; disk := disk w |}
  | OpCleanup clock => Some {| store := Cleanup clock (store w); disk := disk w |}
  | OpToDisk =>
      let '(kv, fs, _) := ToDisk (store w) (disk w) in
      Some {| store := kv; disk := fs |}
  end.

Fixpoint run (w : world) (ops : list op) : option world :=
  match ops with
  | [] => Some w
  | o :: rest => w' ← step w o; run w' rest
  end.

(** ** The workers *)

Definition time_Millisecond : Z := 1000000.

(** [time.NewTicker(time.Duration(interval) * time.Millisecond)]: the
    product is one of [int64], and [NewTicker] panics on a duration that is
    not positive. *)
Definition NewTicker_panics (interval : Z) : bool :=
  bool_decide (int64_wrap (interval * time_Millisecond) <= 0).

Definition esc : string := String (ascii_of_nat 27) EmptyString.

Definition flush_error_line (fmt_f : float64 -> string) (err : error) : string :=
  esc +:+ "[1;31mERROR" +:+ esc +:+ "[1;m37" +:+ Error fmt_f err
  +:+ "Error while flushing to disk: " +:+ String nl EmptyString.

Fixpoint ToDiskWorker_loop (fmt_f : float64 -> string) (events : list (event unit))
    (w : world) (log : list string) : world * list string * bool :=
  match events with
  | [] => (w, log, false)
  | done_signal :: _ => (w, log ++ ["Stopping disk flushing worker..."], true)
  | ctx_Done :: _ => (w, log ++ ["Stopping disk flushing worker..."], true)
  | ticker_C _ :: rest =>
      let '(kv, fs, err) := ToDisk (store w) (disk w) in
      let log' :=
        match err with
        | Some e => log ++ [flush_error_line fmt_f e]
        | None => log
        end in
      ToDiskWorker_loop fmt_f rest {| store := kv; disk := fs |} log'
  end.

Definition ToDiskWorker (fmt_f : float64 -> string) (w : world) (flushingInterval : Z)
    (events : list (event unit)) : option (world * list string * bool) :=
  if NewTicker_panics flushingInterval then None
  else Some (ToDiskWorker_loop fmt_f events w []).

Fixpoint CleanupWorker_loop (events : list (event (nat -> Z))) (w : world)
    (log : list string) : world * list string * bool :=
  match events with
  | [] => (w, log, false)
  | done_signal :: _ => (w, log ++ ["Stopping cleanup worker..."], true)
  | ctx_Done :: _ => (w, log ++ ["Stopping cleanup worker..."], true)
  | ticker_C clock :: rest =>
      CleanupWorker_loop rest {| store := Cleanup clock (store w); disk := disk w |} log
  end.

Definition CleanupWorker (w : world) (cleanupInterval : Z)
    (events : list (event (nat -> Z))) : option (world * list string * bool) :=
  if NewTicker_panics cleanupInterval then None
  else Some (CleanupWorker_loop events w []).

(** * Notions that the properties are stated with *)

(** The expiry rule of the data model: [ttl_ms > 0] and
    [now_ms - timestamp_ms > ttl_ms]. *)
Definition expired (now : Z) (e : ShardEntry) : bool :=
  f64.gtb (Ttl e) f64.zero
  && f64.gtb (f64.of_int (int64_sub now (Timestamp e))) (Ttl e).

(** The time to live that [Put] stores, in milliseconds. *)
Definition stored_ttl (ttl : option float64) : float64 :=
  match ttl with
  | None => f64.of_int (-1)
  | Some t => f64.mul t (f64.of_int 1000)
  end.

(** The entry a store holds for a key, in the shard the key is routed to. *)
Definition entry_of (kv : KVStore) (key : string) : option ShardEntry :=
  i ← findShard kv key; s ← Shards kv !! i; Data s !! key.

(** The operations that write a key: [Put] and [Delete] of that key. *)
Definition writes_key (key : string) (o : op) : bool :=
  match o with
  | OpPut _ k _ _ | OpDelete k => bool_decide (k = key)
  | _ => false
  end.

(** The file [Flush] writes for the serialized map [body]:
    [<json_body>\n<hex_md5>]. *)
Definition snapshot (body : string) : string :=
  body +:+ String nl EmptyString +:+ hex.EncodeToString (md5.Sum body).

(** No newline among the characters of a string. *)
Fixpoint no_nl (s : string) : Prop :=
  match s with
  | EmptyString => True
  | String c rest => c <> nl /\ no_nl rest
  end.


(** The snapshot file of shard [i]. *)
Definition file_of (dir : string) (i : nat) : string * string :=
  path_Join dir (shard_file i).


(** The checks of [NewKVStoreFromDisk] on the file of shard [i], and the
    map it gives the shard: without a file the empty map; with one, the last
    line decodes from hexadecimal to the MD5 of the lines before it, and
    these lines decode to the map. *)
Definition accepts (fs : FS) (dir : string) (i : nat) (data : gmap string ShardEntry) : Prop :=
  match fs_files fs !! file_of dir i with
  | None => data = ∅
  | Some content =>
      let lines := strings_Split content in
      let mapData := strings_Join (take (length lines - 1) lines) in
      hex.DecodeString (default EmptyString (last lines)) = inr (md5.Sum mapData) /\
      json_Unmarshal mapData = inr data
  end.







(** The file [content] does not pass the checks of [NewKVStoreFromDisk]
    that come before the decoding of the body: its last line is no
    hexadecimal string, or is not the MD5 of the lines before it. [msg] is
    the reason reported. *)
Definition rejected (content msg : string) : Prop :=
  let lines := strings_Split content in
  match hex.DecodeString (default EmptyString (last lines)) with
  | inl err => msg = err
  | inr integrityHash =>
      md5.Sum (strings_Join (take (length lines - 1) lines)) <> integrityHash /\
      msg = hash_mismatch
  end.

(** What the loader makes of the content of a file it has read: the content
    passes, and gives [data], when its last line decodes from hexadecimal to
    the MD5 of the lines before it and these lines decode to [data]; it
    fails with [msg] when it is [rejected] with [msg] or when the lines
    before the last match the digest and do not decode. *)
Definition file_passes (content : string) (data : gmap string ShardEntry) : Prop :=
  let lines := strings_Split content in
  let mapData := strings_Join (take (length lines - 1) lines) in
  hex.DecodeString (default EmptyString (last lines)) = inr (md5.Sum mapData) /\
  json_Unmarshal mapData = inr data.

Definition file_fails (content msg : string) : Prop :=
  rejected content msg \/
  let lines := strings_Split content in
  let mapData := strings_Join (take (length lines - 1) lines) in
  hex.DecodeString (default EmptyString (last lines)) = inr (md5.Sum mapData) /\
  json_Unmarshal mapData = inl msg.

(** The same for shard [i] of a directory, on any answers of [os.Stat] and
    [os.ReadFile]: the shard loads as the empty map when its file is
    reported missing and as what its content gives when the file is read
    and passes; it fails when the file is not reported missing and either
    cannot be read or has a content that fails. *)
Definition shard_loads (IsNotExist : string * string -> bool)
    (ReadFile : string * string -> string + string) (dir : string) (i : nat)
    (data : gmap string ShardEntry) : Prop :=
  if IsNotExist (file_of dir i) then data = ∅
  else exists content, ReadFile (file_of dir i) = inr content /\ file_passes content data.

Definition shard_fails (IsNotExist : string * string -> bool)
    (ReadFile : string * string -> string + string) (dir : string) (i : nat)
    (msg : string) : Prop :=
  IsNotExist (file_of dir i) = false /\
  (ReadFile (file_of dir i) = inl msg \/
   exists content, ReadFile (file_of dir i) = inr content /\ file_fails content msg).




(** Every key a shard holds is routed to that shard. *)
Definition well_routed (kv : KVStore) : Prop :=
  forall i s key, Shards kv !! i = Some s -> is_Some (Data s !! key) ->
    findShard kv key = Some i.

(** The mantissa and exponent of [float64(n)] for [0 < n < 2^53]. *)
Definition canon_m (p : positive) : positive :=
  match (53 - Z.pos (digits2_pos p))%Z with
  | Z.pos k => Pos.iter xO p k
  | _ => p
  end.
Definition canon_e (p : positive) : Z := Z.pos (digits2_pos p) - 53.

(** The ticks a worker receives before the first event that stops it, and
    whether there is such an event. *)
Fixpoint ticks {T : Type} (events : list (event T)) : list T :=
  match events with
  | ticker_C t :: rest => t :: ticks rest
  | _ => []
  end.

Fixpoint stops {T : Type} (events : list (event T)) : bool :=
  match events with
  | [] => false
  | ticker_C _ :: rest => stops rest
  | _ => true
  end.

(** The last character of a string. *)
Fixpoint last_ascii (s : string) : option ascii :=
  match s with
  | EmptyString => None
  | String c rest => match last_ascii rest with Some d => Some d | None => Some c end
  end.

(** * Properties *)

Arguments Cleanup : simpl never.
Arguments Evict : simpl never.
Arguments set_shard : simpl never.

(** ** Routing *)

Lemma lxor_32 (a b : Z) :
  0 <= a < 2 ^ 32 -> 0 <= b < 2 ^ 32 -> 0 <= Z.lxor a b < 2 ^ 32.
Proof.
  intros [Ha Ha'] [Hb Hb']. split; [by apply Z.lxor_nonneg|].
  destruct (decide (Z.lxor a b = 0)) as [->|Hne]; [done|].
  assert (0 < Z.lxor a b) by (pose proof (proj2 (Z.lxor_nonneg a b)); lia).
  apply Z.log2_lt_pow2; [done|].
  pose proof (Z.log2_lxor a b Ha Hb).
  destruct (decide (a = 0)) as [->|?]; destruct (decide (b = 0)) as [->|?];
    rewrite ?Z.lxor_0_l, ?Z.lxor_0_r in *;
    try (apply Z.log2_lt_pow2; lia).
  assert (Z.log2 a < 32) by (apply Z.log2_lt_pow2; lia).
  assert (Z.log2 b < 32) by (apply Z.log2_lt_pow2; lia). lia.
Qed.

Lemma shiftr_32 (a n : Z) : 0 <= n -> 0 <= a < 2 ^ 32 -> 0 <= Z.shiftr a n < 2 ^ 32.
Proof.
  intros Hn [Ha Ha']. rewrite Z.shiftr_div_pow2 by done. split.
  - apply Z.div_pos; lia.
  - apply Z.le_lt_trans with a; [|done].
    apply Z.div_le_upper_bound; [lia|]. nia.
Qed.


Lemma crc32_shift1_32 (crc : Z) :
  0 <= crc < 2 ^ 32 -> 0 <= crc32.shift1 crc32.IEEE crc < 2 ^ 32.
Proof.
  intros H. unfold crc32.shift1.
  destruct (Z.testbit crc 0).
  - apply lxor_32; [by apply shiftr_32|]. unfold crc32.IEEE. lia.
  - by apply shiftr_32.
Qed.

Lemma crc32_table_entry_32 (i : Z) :
  0 <= i < 2 ^ 32 -> 0 <= crc32.table_entry crc32.IEEE i < 2 ^ 32.
Proof.
  intros H. unfold crc32.table_entry.
  generalize 8%nat. intros n. induction n as [|n IH]; simpl; [done|].
  by apply crc32_shift1_32.
Qed.

Lemma byte_range (c : ascii) : 0 <= Z.of_N (N_of_ascii c) < 256.
Proof. pose proof (N_ascii_bounded c). lia. Qed.

Lemma bytes_of_range (s : string) : Forall (fun b => 0 <= b < 256) (bytes_of s).
Proof.
  unfold bytes_of. apply Forall_fmap, Forall_forall. intros c _. apply byte_range.
Qed.

Lemma land_ff_range (a : Z) : 0 <= a -> 0 <= Z.land a 0xff < 256.
Proof.
  intros Ha. change 0xff with (Z.ones 8). rewrite Z.land_ones by lia.
  apply Z.mod_pos_bound. lia.
Qed.

Lemma crc32_update1_32 (crc v : Z) :
  0 <= crc < 2 ^ 32 -> 0 <= v < 256 -> 0 <= crc32.update1 crc32.IEEE crc v < 2 ^ 32.
Proof.
  intros Hc Hv. unfold crc32.update1. apply lxor_32.
  - apply crc32_table_entry_32. apply lxor_32; [|lia].
    pose proof (land_ff_range crc). lia.
  - by apply shiftr_32.
Qed.

(** The checksum is a [uint32]. *)
Lemma ChecksumIEEE_range (key : string) : 0 <= crc32.ChecksumIEEE key < 2 ^ 32.
Proof.
  unfold crc32.ChecksumIEEE, crc32.update.
  apply lxor_32; [|by vm_compute].
  assert (0 <= Z.lxor 0 0xffffffff < 2 ^ 32) as H by (by vm_compute).
  revert H. generalize (Z.lxor 0 0xffffffff).
  induction (bytes_of_range key) as [|v p Hv _ IH]; intros crc Hcrc; simpl; [done|].
  apply IH. by apply crc32_update1_32.
Qed.

Lemma NewKVStore_fold (n k : nat) (c : KVStore) :
  let c' := foldl (fun c i =>
           {| Shards := Shards c ++ [NewShard];
              Directory := Directory c;
              shardDimensions := <[i := 0%nat]> (shardDimensions c) |}) c (seq k n) in
  Shards c' = Shards c ++ replicate n NewShard /\ Directory c' = Directory c /\
  forall i, shardDimensions c' !! i =
            if decide (k <= i < k + n)%nat then Some 0%nat else shardDimensions c !! i.
Proof.
  revert k c. induction n as [|n IH]; intros k c; simpl.
  - rewrite app_nil_r. repeat split. intros i. case_decide; [lia|done].
  - destruct (IH (S k) {| Shards := Shards c ++ [NewShard];
              Directory := Directory c;
              shardDimensions := <[k := 0%nat]> (shardDimensions c) |}) as (Hs & Hd & Hm).
    simpl in *. rewrite Hs, Hd, <- app_assoc. repeat split. intros i. rewrite Hm.
    repeat case_decide; try lia; try done.
    + assert (i = k) as -> by lia. by rewrite lookup_insert_eq.
    + rewrite lookup_insert_ne by lia. done.
Qed.

Lemma NewKVStore_Shards (n : nat) (dir : string) :
  Shards (NewKVStore n dir) = replicate n NewShard.
Proof. apply (NewKVStore_fold n 0 {| Shards := []; Directory := dir; shardDimensions := ∅ |}). Qed.

Lemma NewKVStore_Directory (n : nat) (dir : string) : Directory (NewKVStore n dir) = dir.
Proof. apply (NewKVStore_fold n 0 {| Shards := []; Directory := dir; shardDimensions := ∅ |}). Qed.

Lemma NewKVStore_dims (n : nat) (dir : string) (i : nat) :
  shardDimensions (NewKVStore n dir) !!! i = 0%nat.
Proof.
  destruct (NewKVStore_fold n 0 {| Shards := []; Directory := dir; shardDimensions := ∅ |})
    as (_ & _ & H).
  unfold NewKVStore. rewrite lookup_total_alt, H. simpl. by case_decide.
Qed.

Lemma findShard_Some (kv : KVStore) (key : string) :
  (0 < length (Shards kv))%nat ->
  exists i, findShard kv key = Some i /\ (i < length (Shards kv))%nat /\
    Z.of_nat i = crc32.ChecksumIEEE key mod Z.of_nat (length (Shards kv)).
Proof.
  intros HN. unfold findShard. case_decide; [lia|].
  pose proof (ChecksumIEEE_range key) as [Hc _].
  rewrite Z.rem_mod_nonneg by lia.
  pose proof (Z.mod_pos_bound (crc32.ChecksumIEEE key) (Z.of_nat (length (Shards kv)))).
  eexists. split; [done|]. split; lia.
Qed.

Lemma findShard_length (kv kv' : KVStore) (key : string) :
  length (Shards kv') = length (Shards kv) -> findShard kv' key = findShard kv key.
Proof. intros H. unfold findShard. by rewrite H. Qed.

Lemma findShard_lt (kv : KVStore) (key : string) (i : nat) :
  findShard kv key = Some i -> (i < length (Shards kv))%nat.
Proof.
  intros H. destruct (decide (length (Shards kv) = 0%nat)) as [E|E].
  - unfold findShard in H. by rewrite decide_True in H.
  - destruct (findShard_Some kv key) as (j & Hj & ? & _); [lia|]. congruence.
Qed.

(** C3. For a store of [N > 0] shards [findShard] is the IEEE CRC-32 of the
    key modulo [N], an index below [N]; a second store of as many shards
    routes the key to the same shard; and a store of three shards routes the
    three keys of scenario S1 to the shards 0, 1 and 2. *)
Theorem findShard_routing (kv kv' : KVStore) (key directory : string) :
  (0 < length (Shards kv))%nat ->
  length (Shards kv') = length (Shards kv) ->
  (exists i, findShard kv key = Some i /\ findShard kv' key = Some i /\
     (i < length (Shards kv))%nat /\
     Z.of_nat i = crc32.ChecksumIEEE key mod Z.of_nat (length (Shards kv))) /\
  findShard (NewKVStore 3 directory) "notthekindofthingyouwouldfind" = Some 0%nat /\
  findShard (NewKVStore 3 directory) "thisisaverylongkey" = Some 1%nat /\
  findShard (NewKVStore 3 directory) "this is an interesting key" = Some 2%nat.
Proof.
  intros HN Hlen. split.
  - destruct (findShard_Some kv key HN) as (i & Hi & Hlt & Hmod).
    exists i. by rewrite (findShard_length kv kv').
  - unfold findShard. rewrite NewKVStore_Shards. repeat split; vm_compute; reflexivity.
Qed.

(** ** float64 *)

Lemma gtb_irrefl (x : float64) : f64.gtb x x = false.
Proof.
  unfold f64.gtb, SFltb, SFcompare.
  destruct x as [[]|[]| |[] m e]; try done;
    by rewrite Z.compare_refl, Pos.compare_cont_refl.
Qed.

Lemma leb_zero_not_gtb (x : float64) :
  f64.leb x f64.zero = true -> f64.gtb x f64.zero = false.
Proof. by destruct x as [[]|[]| |[] m e]. Qed.

Lemma iter_pos_invariant {A} (P : A -> Prop) (f : A -> A) :
  (forall x, P x -> P (f x)) -> forall n x, P x -> P (iter_pos f n x).
Proof.
  intros Hf n. induction n as [n IH|n IH|]; intros x Hx; simpl; auto.
Qed.

Lemma shr_1_nonneg (mrs : shr_record) : 0 <= shr_m mrs -> 0 <= shr_m (shr_1 mrs).
Proof. destruct mrs as [[|[p|p|]|p] r s]; simpl; lia. Qed.

Lemma shr_fexp_nonneg (m e : Z) (l : location) :
  0 <= m -> 0 <= shr_m (shr_fexp f64.prec f64.emax m e l).1.
Proof.
  intros Hm. unfold shr_fexp, shr.
  assert (0 <= shr_m (shr_record_of_loc m l)) by (by destruct l as [|[]]).
  destruct (_ - e); simpl; [done| |done].
  apply (iter_pos_invariant (fun mrs => 0 <= shr_m mrs)); [apply shr_1_nonneg|done].
Qed.

Lemma round_nearest_even_nonneg (m : Z) (l : location) :
  0 <= m -> 0 <= round_nearest_even m l.
Proof. intros Hm. destruct l as [|[]]; simpl; try done; [case_match|]; lia. Qed.

(** Rounding keeps the sign it is given. *)
Lemma binary_round_aux_sign (sx : bool) (mx ex : Z) (lx : location) :
  0 <= mx ->
  let r := binary_round_aux f64.prec f64.emax sx mx ex lx in
  r = S754_zero sx \/ r = S754_infinity sx \/ exists m e, r = S754_finite sx m e.
Proof.
  intros Hm. unfold binary_round_aux.
  pose proof (shr_fexp_nonneg mx ex lx Hm) as H1.
  destruct (shr_fexp f64.prec f64.emax mx ex lx) as [mrs' e']. simpl in H1.
  pose proof (shr_fexp_nonneg _ e' loc_Exact
                (round_nearest_even_nonneg _ (loc_of_shr_record mrs') H1)) as H2.
  destruct (shr_fexp f64.prec f64.emax _ e' loc_Exact) as [mrs'' e'']. simpl in *.
  destruct (shr_m mrs'') as [|m|m]; [by left| |lia].
  case_match; [right; right; eauto|right; by left].
Qed.

(** A time to live of [t <= 0] seconds is stored as [t * 1000 <= 0]. *)
Lemma mul_1000_nonpos (t : float64) :
  f64.leb t f64.zero = true ->
  f64.leb (f64.mul t (f64.of_int 1000)) f64.zero = true.
Proof.
  intros Ht. unfold f64.mul.
  replace (f64.of_int 1000) with (S754_finite false 8796093022208000 (-43))
    by (by vm_compute).
  destruct t as [[]|[]| |[] m e]; try done. unfold SFmul.
  destruct (binary_round_aux_sign (xorb true false)
              (Z.pos (m * 8796093022208000)) (e + -43) loc_Exact) as [H|[H|(m'&e'&H)]];
    [lia|..]; fold f64.prec f64.emax; by rewrite H.
Qed.

(** ** Expiry and eviction *)

Lemma Evict_fold_lookup (now : Z) (D m : gmap string ShardEntry) (k : string) :
  map_fold (fun key value data =>
              if f64.gtb (Ttl value) f64.zero
                 && f64.gtb (f64.of_int (int64_sub now (Timestamp value))) (Ttl value)
              then delete key data else data) D m !! k =
  match m !! k with
  | Some e => if expired now e then None else D !! k
  | None => D !! k
  end.
Proof.
  revert k.
  apply (map_fold_weak_ind (fun (r m : gmap string ShardEntry) => forall k,
      r !! k = match m !! k with
               | Some e => if expired now e then None else D !! k
               | None => D !! k
               end)).
  - intros k. by rewrite lookup_empty.
  - intros i x m' r Hi IH k. fold (expired now x).
    destruct (decide (k = i)) as [->|Hne].
    + rewrite lookup_insert_eq. destruct (expired now x).
      * by rewrite lookup_delete_eq.
      * by rewrite IH, Hi.
    + rewrite lookup_insert_ne by done. destruct (expired now x).
      * by rewrite lookup_delete_ne, IH.
      * by rewrite IH.
Qed.

(** [Evict] removes the expired entries and nothing else. *)
Lemma Evict_lookup (now : Z) (s : Shard) (key : string) :
  Data (Evict now s) !! key =
  Data s !! key ≫= fun e => if expired now e then None else Some e.
Proof.
  unfold Evict. case_decide as Hsz.
  { apply map_size_empty_inv in Hsz. by rewrite Hsz, lookup_empty. }
  simpl. rewrite Evict_fold_lookup.
  destruct (Data s !! key) as [e|] eqn:He; simpl; [|done].
  by destruct (expired now e).
Qed.

Lemma Evict_empty (now : Z) (s : Shard) : Data s = ∅ -> Evict now s = s.
Proof. intros H. unfold Evict. by rewrite H, map_size_empty, decide_True. Qed.

Lemma Cleanup_Shards_lookup (clock : nat -> Z) (kv : KVStore) (i : nat) :
  Shards (Cleanup clock kv) !! i = Evict (clock i) <$> Shards kv !! i.
Proof.
  unfold Cleanup. simpl.
  apply (list_lookup_imap (fun i s => Evict (clock i) s)).
Qed.

Lemma Cleanup_length (clock : nat -> Z) (kv : KVStore) :
  length (Shards (Cleanup clock kv)) = length (Shards kv).
Proof. unfold Cleanup. simpl. apply length_imap. Qed.

(** C6. After [Cleanup] no shard holds an entry whose time to live is
    positive and exceeded at the clock reading of that shard's eviction;
    every entry whose time to live is [<= 0] is still in its shard; and
    [Evict] leaves an empty shard as it is. *)
Theorem Cleanup_evicts_expired (clock : nat -> Z) (kv : KVStore) :
  (forall i s' key e,
      Shards (Cleanup clock kv) !! i = Some s' -> Data s' !! key = Some e ->
      (f64.gtb (Ttl e) f64.zero
       && f64.gtb (f64.of_int (int64_sub (clock i) (Timestamp e))) (Ttl e)) = false) /\
  (forall i s key e,
      Shards kv !! i = Some s -> Data s !! key = Some e ->
      f64.leb (Ttl e) f64.zero = true ->
      exists s', Shards (Cleanup clock kv) !! i = Some s' /\ Data s' !! key = Some e) /\
  (forall now s, getLength s = 0%nat -> Evict now s = s).
Proof.
  split; [|split].
  - intros i s' key e Hs' He. rewrite Cleanup_Shards_lookup in Hs'.
    destruct (Shards kv !! i) as [s|]; simplify_eq/=.
    rewrite Evict_lookup in He.
    destruct (Data s !! key) as [e'|]; simplify_eq/=.
    fold (expired (clock i) e'). by destruct (expired (clock i) e') eqn:E; simplify_eq.
  - intros i s key e Hs He Httl. exists (Evict (clock i) s).
    rewrite Cleanup_Shards_lookup, Hs. split; [done|].
    rewrite Evict_lookup, He. simpl. unfold expired.
    by rewrite (leb_zero_not_gtb _ Httl).
  - intros now s Hs. apply Evict_empty. by apply map_size_empty_inv.
Qed.

(** ** Put, Get and Delete *)

Lemma set_shard_length (kv : KVStore) (i : nat) (s : Shard) :
  length (Shards (set_shard kv i s)) = length (Shards kv).
Proof. apply length_insert. Qed.

Lemma findShard_set_shard (kv : KVStore) (i : nat) (s : Shard) (key : string) :
  findShard (set_shard kv i s) key = findShard kv key.
Proof. apply findShard_length, set_shard_length. Qed.

Lemma entry_of_set_shard (kv : KVStore) (i : nat) (s' : Shard) (key : string) :
  (i < length (Shards kv))%nat ->
  entry_of (set_shard kv i s') key =
  if decide (findShard kv key = Some i) then Data s' !! key else entry_of kv key.
Proof.
  intros Hi. unfold entry_of. rewrite findShard_set_shard.
  destruct (findShard kv key) as [j|] eqn:Hj; simpl; [|done].
  case_decide as E; simplify_eq.
  - by rewrite list_lookup_insert_eq.
  - rewrite list_lookup_insert_ne; [done|congruence].
Qed.

Lemma Put_inv (now : Z) (kv kv' : KVStore) (key : string) (value : any)
    (ttl : option float64) :
  Put now kv key value ttl = Some kv' ->
  exists i s, findShard kv key = Some i /\ Shards kv !! i = Some s /\
    kv' = set_shard kv i
            {| Data := <[key := NewShardEntry now value (stored_ttl ttl)]> (Data s) |}.
Proof. unfold Put. intros H. simplify_option_eq. eauto. Qed.

Lemma Delete_inv (kv kv' : KVStore) (key : string) :
  Delete kv key = Some kv' ->
  exists i s, findShard kv key = Some i /\ Shards kv !! i = Some s /\
    kv' = set_shard kv i {| Data := delete key (Data s) |}.
Proof. unfold Delete. intros H. simplify_option_eq. eauto. Qed.

Lemma Put_Some (now : Z) (kv : KVStore) (key : string) (value : any)
    (ttl : option float64) :
  (0 < length (Shards kv))%nat -> is_Some (Put now kv key value ttl).
Proof.
  intros HN. destruct (findShard_Some kv key HN) as (i & Hi & Hlt & _).
  destruct (lookup_lt_is_Some_2 _ _ Hlt) as [s Hs].
  unfold Put. rewrite Hi. simpl. rewrite Hs. simpl. eauto.
Qed.

Lemma Delete_Some (kv : KVStore) (key : string) :
  (0 < length (Shards kv))%nat -> is_Some (Delete kv key).
Proof.
  intros HN. destruct (findShard_Some kv key HN) as (i & Hi & Hlt & _).
  destruct (lookup_lt_is_Some_2 _ _ Hlt) as [s Hs].
  unfold Delete. rewrite Hi. simpl. rewrite Hs. simpl. eauto.
Qed.

Lemma Get_Some (now : Z) (kv : KVStore) (key : string) :
  (0 < length (Shards kv))%nat -> is_Some (Get now kv key).
Proof.
  intros HN. destruct (findShard_Some kv key HN) as (i & Hi & Hlt & _).
  destruct (lookup_lt_is_Some_2 _ _ Hlt) as [s Hs].
  unfold Get. rewrite Hi. simpl. rewrite Hs. simpl. eauto.
Qed.

Lemma Put_length (now : Z) (kv kv' : KVStore) (key : string) (value : any)
    (ttl : option float64) :
  Put now kv key value ttl = Some kv' -> length (Shards kv') = length (Shards kv).
Proof. intros (i & s & _ & _ & ->)%Put_inv. apply set_shard_length. Qed.

Lemma Delete_length (kv kv' : KVStore) (key : string) :
  Delete kv key = Some kv' -> length (Shards kv') = length (Shards kv).
Proof. intros (i & s & _ & _ & ->)%Delete_inv. apply set_shard_length. Qed.

Lemma entry_of_Put (now : Z) (kv kv' : KVStore) (key key' : string) (value : any)
    (ttl : option float64) :
  Put now kv key' value ttl = Some kv' ->
  entry_of kv' key =
  if decide (key = key') then Some (NewShardEntry now value (stored_ttl ttl))
  else entry_of kv key.
Proof.
  intros (i & s & Hi & Hs & ->)%Put_inv.
  rewrite entry_of_set_shard by (by eapply lookup_lt_Some). simpl.
  destruct (decide (key = key')) as [->|Hne].
  - by rewrite decide_True, lookup_insert_eq.
  - case_decide as E; [|done]. rewrite lookup_insert_ne by done.
    unfold entry_of. rewrite E. simpl. by rewrite Hs.
Qed.

Lemma entry_of_Delete (kv kv' : KVStore) (key key' : string) :
  Delete kv key' = Some kv' ->
  entry_of kv' key = if decide (key = key') then None else entry_of kv key.
Proof.
  intros (i & s & Hi & Hs & ->)%Delete_inv.
  rewrite entry_of_set_shard by (by eapply lookup_lt_Some). simpl.
  destruct (decide (key = key')) as [->|Hne].
  - by rewrite decide_True, lookup_delete_eq.
  - case_decide as E; [|done]. rewrite lookup_delete_ne by done.
    unfold entry_of. rewrite E. simpl. by rewrite Hs.
Qed.

Lemma entry_of_Some (kv : KVStore) (key : string) (e : ShardEntry) :
  entry_of kv key = Some e <->
  exists i s, findShard kv key = Some i /\ Shards kv !! i = Some s /\ Data s !! key = Some e.
Proof.
  unfold entry_of. rewrite bind_Some. setoid_rewrite bind_Some.
  split; [intros (i & Hi & s & Hs & He)|intros (i & s & Hi & Hs & He)]; eauto 10.
Qed.

Lemma entry_of_Cleanup (clock : nat -> Z) (kv : KVStore) (key : string) (e : ShardEntry) :
  entry_of kv key = Some e -> f64.gtb (Ttl e) f64.zero = false ->
  entry_of (Cleanup clock kv) key = Some e.
Proof.
  rewrite !entry_of_Some. intros (i & s & Hi & Hs & He) Httl.
  exists i, (Evict (clock i) s).
  rewrite (findShard_length kv) by apply Cleanup_length.
  rewrite Cleanup_Shards_lookup, Hs, Evict_lookup, He. simpl.
  unfold expired. by rewrite Httl.
Qed.

(** [Get] in terms of the entry held for the key. *)
Lemma Get_entry_of (now : Z) (kv : KVStore) (key : string) (e : ShardEntry) :
  entry_of kv key = Some e ->
  Get now kv key =
  Some (if expired now e
        then Err (ExpiredEntryError key (int64_sub now (Timestamp e)) (Ttl e))
        else Ok (Value e)).
Proof.
  unfold entry_of, Get. intros H.
  destruct (findShard kv key) as [i|]; simplify_eq/=.
  destruct (Shards kv !! i) as [s|]; simplify_eq/=.
  by rewrite H.
Qed.

Lemma Get_entry_of_None (now : Z) (kv : KVStore) (key : string) :
  (0 < length (Shards kv))%nat -> entry_of kv key = None ->
  Get now kv key = Some (Err (KeyNotFoundError key)).
Proof.
  intros HN. destruct (findShard_Some kv key HN) as (i & Hi & Hlt & _).
  destruct (lookup_lt_is_Some_2 _ _ Hlt) as [s Hs].
  unfold entry_of, Get. rewrite Hi. simpl. rewrite Hs. simpl. by intros ->.
Qed.

Lemma entry_of_is_Some_length (kv : KVStore) (key : string) :
  is_Some (entry_of kv key) -> (0 < length (Shards kv))%nat.
Proof.
  intros [e H]. unfold entry_of in H.
  destruct (findShard kv key) as [i|] eqn:Hi; simplify_eq/=.
  apply findShard_lt in Hi. lia.
Qed.

(** ** Runs *)

Lemma ToDisk_Shards (kv : KVStore) (fs : FS) :
  Shards (ToDisk kv fs).1.1 = Shards kv /\ Directory (ToDisk kv fs).1.1 = Directory kv.
Proof. unfold ToDisk. by destruct (ToDisk_loop _ _ _ _ _) as [[dims fs'] err]. Qed.

Lemma entry_of_Shards (kv kv' : KVStore) (key : string) :
  Shards kv' = Shards kv -> entry_of kv' key = entry_of kv key.
Proof.
  intros H. unfold entry_of. rewrite (findShard_length kv kv') by (by rewrite H).
  by rewrite H.
Qed.

(** No operation panics on a store that has a shard, and none changes the
    number of shards. *)
Lemma step_total (w : world) (o : op) :
  (0 < length (Shards (store w)))%nat ->
  exists w', step w o = Some w' /\
    length (Shards (store w')) = length (Shards (store w)).
Proof.
  intros HN. destruct o as [now key value ttl|now key|key|clock|]; simpl.
  - destruct (Put_Some now (store w) key value ttl HN) as [kv' Hkv']. rewrite Hkv'. simpl.
    eexists. split; [done|]. simpl. by eapply Put_length.
  - destruct (Get_Some now (store w) key HN) as [r Hr]. rewrite Hr. simpl. eauto.
  - destruct (Delete_Some (store w) key HN) as [kv' Hkv']. rewrite Hkv'. simpl.
    eexists. split; [done|]. simpl. by eapply Delete_length.
  - eexists. split; [done|]. simpl. apply Cleanup_length.
  - pose proof (ToDisk_Shards (store w) (disk w)) as [Hs _].
    destruct (ToDisk (store w) (disk w)) as [[kv fs] err]. simpl in *.
    eexists. split; [done|]. simpl. by rewrite Hs.
Qed.

Lemma run_total (ops : list op) (w : world) :
  (0 < length (Shards (store w)))%nat ->
  exists w', run w ops = Some w' /\
    length (Shards (store w')) = length (Shards (store w)).
Proof.
  revert w. induction ops as [|o ops IH]; intros w HN; simpl; [eauto|].
  destruct (step_total w o HN) as (w1 & -> & Hlen). simpl.
  destruct (IH w1) as (w' & Hw' & Hlen'); [lia|]. exists w'. split; [done|]. lia.
Qed.

(** An entry that cannot expire stays as it is in a step that does not
    write its key. *)
Lemma step_keeps_entry (w w' : world) (o : op) (key : string) (e : ShardEntry) :
  step w o = Some w' -> writes_key key o = false ->
  entry_of (store w) key = Some e -> f64.gtb (Ttl e) f64.zero = false ->
  entry_of (store w') key = Some e.
Proof.
  intros Hstep Hw He Httl.
  destruct o as [now k value ttl|now k|k|clock|]; simpl in *.
  - apply bool_decide_eq_false in Hw.
    destruct (Put now (store w) k value ttl) as [kv'|] eqn:Hput; simplify_eq/=.
    rewrite (entry_of_Put _ _ _ _ _ _ _ Hput). by rewrite decide_False.
  - destruct (Get now (store w) k); by simplify_eq/=.
  - apply bool_decide_eq_false in Hw.
    destruct (Delete (store w) k) as [kv'|] eqn:Hdel; simplify_eq/=.
    rewrite (entry_of_Delete _ _ _ _ Hdel). by rewrite decide_False.
  - simplify_eq. by apply entry_of_Cleanup.
  - pose proof (ToDisk_Shards (store w) (disk w)) as [Hs _].
    destruct (ToDisk (store w) (disk w)) as [[kv fs] err]. simplify_eq/=.
    by rewrite (entry_of_Shards _ _ _ Hs).
Qed.

Lemma run_keeps_entry (ops : list op) (w : world) (key : string) (e : ShardEntry) :
  Forall (fun o => writes_key key o = false) ops ->
  entry_of (store w) key = Some e -> f64.gtb (Ttl e) f64.zero = false ->
  exists w', run w ops = Some w' /\ entry_of (store w') key = Some e.
Proof.
  intros Hops. revert w. induction Hops as [|o ops Ho _ IH]; intros w He Httl; simpl.
  - eauto.
  - destruct (step_total w o) as (w1 & Hstep & _).
    { apply (entry_of_is_Some_length _ key). eauto. }
    rewrite Hstep. simpl. apply IH; [|done]. by eapply step_keeps_entry.
Qed.

(** C1. Once [Put(k, v, nil)] has returned, the entry of [k] carries the
    sentinel [-1] as its time to live, and after any further operations on
    the store among which there is no [Put] or [Delete] of [k] (other keys
    written, [Get], [Cleanup], [ToDisk]), [Get(k)] returns [v], whatever the
    clock reads. *)
Theorem Put_Get_roundtrip (w w1 : world) (now now' : Z) (key : string) (value : any)
    (ops : list op) :
  step w (OpPut now key value None) = Some w1 ->
  Forall (fun o => writes_key key o = false) ops ->
  entry_of (store w1) key = Some (NewShardEntry now value (f64.of_int (-1))) /\
  exists w2, run w1 ops = Some w2 /\ Get now' (store w2) key = Some (Ok value).
Proof.
  intros Hput Hops. simpl in Hput.
  destruct (Put now (store w) key value None) as [kv'|] eqn:Hkv'; simplify_eq/=.
  pose proof (entry_of_Put _ _ _ key _ _ _ Hkv') as He. rewrite decide_True in He by done.
  split; [done|].
  destruct (run_keeps_entry ops {| store := kv'; disk := disk w |} key _ Hops He)
    as (w2 & Hrun & He2); [done|].
  exists w2. split; [done|]. by rewrite (Get_entry_of _ _ _ _ He2).
Qed.

Lemma expired_nonpositive (now : Z) (e : ShardEntry) :
  f64.gtb (Ttl e) f64.zero = false -> expired now e = false.
Proof. intros H. unfold expired. by rewrite H. Qed.

(** C2. For a key the store holds, [Get] answers [ExpiredEntryError] with
    the key, the entry's time to live and the elapsed time exactly when the
    time to live is positive and strictly exceeded by the elapsed time;
    otherwise it answers the stored value. An elapsed time equal to the time
    to live is not an expiry. [Get] leaves the store as it was, so the
    expired entry is still held. *)
Theorem Get_expiry (w : world) (now : Z) (key : string) (val : ShardEntry) :
  entry_of (store w) key = Some val ->
  (Get now (store w) key
   = Some (Err (ExpiredEntryError key (int64_sub now (Timestamp val)) (Ttl val)))
   <-> expired now val = true) /\
  (expired now val = false -> Get now (store w) key = Some (Ok (Value val))) /\
  (Ttl val = f64.of_int (int64_sub now (Timestamp val)) -> expired now val = false) /\
  step w (OpGet now key) = Some w.
Proof.
  intros He. rewrite (Get_entry_of now _ _ _ He). repeat split.
  - by destruct (expired now val).
  - by intros ->.
  - by intros ->.
  - intros Httl. unfold expired. rewrite <- Httl, gtb_irrefl. apply andb_false_r.
  - simpl. by rewrite (Get_entry_of now _ _ _ He).
Qed.

(** C10. [Put(k, v, &t)] with [t <= 0] stores the time to live
    [t * 1000 <= 0]. After any further operations that do not write [k],
    [Get(k)] returns [v] whatever the clock reads, and neither [Cleanup] nor
    [Evict] on the key's shard removes the entry. *)
Theorem nonpositive_ttl_never_expires (w w1 : world) (now now' now'' : Z)
    (key : string) (value : any) (t : float64) (ops : list op) (clock : nat -> Z) :
  f64.leb t f64.zero = true ->
  step w (OpPut now key value (Some t)) = Some w1 ->
  Forall (fun o => writes_key key o = false) ops ->
  let e := NewShardEntry now value (f64.mul t (f64.of_int 1000)) in
  f64.leb (Ttl e) f64.zero = true /\
  entry_of (store w1) key = Some e /\
  exists w2, run w1 ops = Some w2 /\
    Get now' (store w2) key = Some (Ok value) /\
    entry_of (Cleanup clock (store w2)) key = Some e /\
    forall i s, findShard (store w2) key = Some i -> Shards (store w2) !! i = Some s ->
      Data (Evict now'' s) !! key = Some e.
Proof.
  intros Ht Hput Hops e. simpl in Hput.
  destruct (Put now (store w) key value (Some t)) as [kv'|] eqn:Hkv'; simplify_eq/=.
  pose proof (entry_of_Put _ _ _ key _ _ _ Hkv') as He. rewrite decide_True in He by done.
  pose proof (mul_1000_nonpos t Ht) as Hle.
  pose proof (leb_zero_not_gtb _ Hle) as Hgt.
  split; [done|]. split; [done|].
  destruct (run_keeps_entry ops {| store := kv'; disk := disk w |} key _ Hops He)
    as (w2 & Hrun & He2); [done|].
  exists w2. split; [done|]. split; [|split].
  - by rewrite (Get_entry_of _ _ _ _ He2), expired_nonpositive.
  - by apply entry_of_Cleanup.
  - intros i s Hi Hs. apply entry_of_Some in He2 as (i' & s' & Hi' & Hs' & He2).
    simplify_eq. rewrite Evict_lookup, He2. simpl. by rewrite expired_nonpositive.
Qed.

(** ** The snapshot layout *)

Lemma strings_Split_cons (s : string) : exists piece pieces, strings_Split s = piece :: pieces.
Proof.
  destruct s as [|c rest]; simpl; [eauto|].
  case_decide; [eauto|]. destruct (strings_Split rest); eauto.
Qed.

Lemma strings_Join_Split (s : string) : strings_Join (strings_Split s) = s.
Proof.
  induction s as [|c rest IH]; simpl; [done|].
  destruct (strings_Split_cons rest) as (piece & pieces & Hrest).
  rewrite Hrest in *. case_decide as Hc.
  - subst c. simpl. by rewrite <- IH.
  - rewrite <- IH. by destruct pieces.
Qed.

Lemma strings_Split_app_nl (a b : string) :
  strings_Split (a +:+ String nl b) = strings_Split a ++ strings_Split b.
Proof.
  induction a as [|c a IH]; simpl.
  - done.
  - case_decide; [by rewrite IH|].
    rewrite IH. by destruct (strings_Split_cons a) as (piece & pieces & ->).
Qed.

Lemma strings_Split_no_nl (s : string) : no_nl s -> strings_Split s = [s].
Proof.
  induction s as [|c rest IH]; simpl; [done|].
  intros [Hc Hrest]. by rewrite decide_False, IH.
Qed.

(** The reading of [NewKVStoreFromDisk]: the last line, and the lines
    before it joined again. *)
Lemma split_last_line (body digest : string) :
  no_nl digest ->
  let lines := strings_Split (body +:+ String nl digest) in
  default EmptyString (last lines) = digest /\
  strings_Join (take (length lines - 1) lines) = body.
Proof.
  intros Hd. simpl. rewrite strings_Split_app_nl, (strings_Split_no_nl digest Hd).
  rewrite last_snoc, length_app. simpl. split; [done|].
  replace (length (strings_Split body) + 1 - 1)%nat with (length (strings_Split body)) by lia.
  by rewrite take_app_length, strings_Join_Split.
Qed.

Lemma string_app_assoc (a b c : string) : (a +:+ b) +:+ c = a +:+ (b +:+ c).
Proof.
  induction a as [|x a IH]; [done|].
  change (String x ((a +:+ b) +:+ c) = String x (a +:+ b +:+ c)). by rewrite IH.
Qed.

(** ** encoding/hex *)



Lemma hex_fromHexChar_digit (n : Z) :
  0 <= n < 16 -> hex.fromHexChar (hex.digit n) = Some n.
Proof.
  intros Hn. rewrite <- (Z2Nat.id n) by lia.
  assert (Z.to_nat n < 16)%nat as Hk by lia. revert Hk. generalize (Z.to_nat n). intros k Hk.
  do 16 (destruct k as [|k]; [done|]). lia.
Qed.

Lemma byte_nibbles (v : Z) :
  0 <= v < 256 ->
  0 <= Z.shiftr v 4 < 16 /\ 0 <= Z.land v 0x0f < 16 /\
  Z.lor (Z.shiftl (Z.shiftr v 4) 4) (Z.land v 0x0f) = v.
Proof.
  intros Hv. rewrite <- (Z2Nat.id v) by lia.
  assert (Z.to_nat v < 256)%nat as Hk by lia. revert Hk. generalize (Z.to_nat v). intros k Hk.
  assert (Forall (fun k => 0 <= Z.shiftr (Z.of_nat k) 4 < 16 /\
                           0 <= Z.land (Z.of_nat k) 0x0f < 16 /\
                           Z.lor (Z.shiftl (Z.shiftr (Z.of_nat k) 4) 4)
                                 (Z.land (Z.of_nat k) 0x0f) = Z.of_nat k)
                 (seq 0 256)) as H.
  { apply Forall_forall. intros x Hx.
    assert (bool_decide (Forall (fun k =>
       ((0 <=? Z.shiftr (Z.of_nat k) 4) && (Z.shiftr (Z.of_nat k) 4 <? 16)
        && (0 <=? Z.land (Z.of_nat k) 0x0f) && (Z.land (Z.of_nat k) 0x0f <? 16)
        && (Z.lor (Z.shiftl (Z.shiftr (Z.of_nat k) 4) 4)
                  (Z.land (Z.of_nat k) 0x0f) =? Z.of_nat k)) = true) (seq 0 256)) = true)
      as Hall by (by vm_compute).
    apply bool_decide_eq_true in Hall. rewrite Forall_forall in Hall.
    specialize (Hall x Hx). lia. }
  rewrite Forall_forall in H. apply H. apply elem_of_seq. lia.
Qed.

Lemma hex_decode_encode (l : list Z) :
  Forall (fun b => 0 <= b < 256) l -> hex.decode (hex.encode l) = inr l.
Proof.
  induction 1 as [|v l Hv _ IH]; simpl; [done|].
  destruct (byte_nibbles v Hv) as (H1 & H2 & H3).
  by rewrite !hex_fromHexChar_digit, IH, H3.
Qed.

Lemma string_of_bytes_of (s : string) : string_of_bytes (bytes_of s) = s.
Proof.
  unfold string_of_bytes, bytes_of.
  rewrite <- (String.string_of_list_ascii_of_string s) at 2. f_equal.
  induction (String.list_ascii_of_string s) as [|c l IH]; [done|].
  rewrite !fmap_cons, IH. by rewrite N2Z.id, ascii_N_embedding.
Qed.

Lemma hex_DecodeString_EncodeToString (s : string) :
  hex.DecodeString (hex.EncodeToString s) = inr s.
Proof.
  unfold hex.DecodeString, hex.EncodeToString.
  by rewrite hex_decode_encode, string_of_bytes_of by apply bytes_of_range.
Qed.

(** ** Flush and ToDisk *)

Lemma file_of_inj (dir : string) (i j : nat) : file_of dir i = file_of dir j -> i = j.
Proof.
  unfold file_of, path_Join, shard_file. intros [= H].
  apply (inj _) in H. by apply (inj pretty) in H.
Qed.

Lemma Flush_empty (s : Shard) (f : string * string) (fs : FS) :
  getLength s = 0%nat -> Flush s f fs = Ok fs.
Proof. intros H. unfold Flush. by rewrite decide_True. Qed.

Lemma Flush_Ok_inv (s : Shard) (f : string * string) (fs fs' : FS) :
  Flush s f fs = Ok fs' -> getLength s <> 0%nat ->
  exists body, json_Marshal (Data s) = inr body /\ f.1 ∈ fs_dirs fs /\
    fs' = {| fs_dirs := fs_dirs fs; fs_files := <[f := snapshot body]> (fs_files fs) |}.
Proof.
  unfold Flush, os_WriteFile, getLength. intros H Hlen.
  rewrite decide_False in H by done.
  destruct (json_Marshal (Data s)) as [err|body]; [done|].
  case_decide; simplify_eq. by exists body.
Qed.

Lemma Flush_dirs (s : Shard) (f : string * string) (fs fs' : FS) :
  Flush s f fs = Ok fs' -> fs_dirs fs' = fs_dirs fs.
Proof.
  intros H. destruct (decide (getLength s = 0%nat)) as [E|E].
  - rewrite Flush_empty in H by done. by simplify_eq.
  - by destruct (Flush_Ok_inv _ _ _ _ H E) as (body & _ & _ & ->).
Qed.

Lemma Flush_other_file (s : Shard) (f g : string * string) (fs fs' : FS) :
  Flush s f fs = Ok fs' -> g <> f \/ getLength s = 0%nat ->
  fs_files fs' !! g = fs_files fs !! g.
Proof.
  intros H Hg. destruct (decide (getLength s = 0%nat)) as [E|E].
  - rewrite Flush_empty in H by done. by simplify_eq.
  - destruct (Flush_Ok_inv _ _ _ _ H E) as (body & _ & _ & ->). simpl.
    destruct Hg as [Hg|Hg]; [|done]. by rewrite lookup_insert_ne.
Qed.

(** [ToDisk] neither creates nor removes a directory, and changes no file
    but those of the shards it flushes: the shards whose length differs from
    the recorded one and is not zero. *)
Lemma ToDisk_loop_frame (dir : string) (shards : list Shard) (i : nat)
    (dims dims' : gmap nat nat) (fs fs' : FS) (err : option error) :
  ToDisk_loop dir i shards dims fs = (dims', fs', err) ->
  fs_dirs fs' = fs_dirs fs /\
  (forall f,
     (forall j s, shards !! j = Some s -> f = file_of dir (i + j) ->
        dims !!! (i + j)%nat = getLength s \/ getLength s = 0%nat) ->
     fs_files fs' !! f = fs_files fs !! f) /\
  (forall k, (k < i \/ i + length shards <= k)%nat -> dims' !!! k = dims !!! k).
Proof.
  revert i dims fs. induction shards as [|s rest IH]; intros i dims fs H; simpl in H.
  { by simplify_eq. }
  case_decide as Hd.
  - destruct (IH _ _ _ H) as (Hdirs & Hfiles & Hdims). split; [done|]. split.
    + intros f Hf. apply Hfiles. intros j s' Hj Hfj.
      replace (S i + j)%nat with (i + S j)%nat in * by lia. by apply (Hf (S j) s').
    + intros k Hk. apply Hdims. simpl in Hk. lia.
  - destruct (Flush s (path_Join dir (shard_file i)) fs) as [fs1|e] eqn:Hfl.
    + destruct (IH _ _ _ H) as (Hdirs & Hfiles & Hdims). split; [|split].
      * rewrite Hdirs. by eapply Flush_dirs.
      * intros f Hf. rewrite Hfiles.
        -- eapply Flush_other_file; [done|].
           destruct (decide (f = file_of dir i)) as [->|Hne]; [|by left].
           destruct (Hf 0%nat s) as [Hc|Hc]; [done|by rewrite Nat.add_0_r|..].
           ++ by rewrite Nat.add_0_r in Hc.
           ++ by right.
        -- intros j s' Hj Hfj.
           replace (S i + j)%nat with (i + S j)%nat in * by lia.
           rewrite lookup_total_insert_ne by lia. by apply (Hf (S j) s').
      * intros k Hk. simpl in Hk. rewrite Hdims by lia.
        apply lookup_total_insert_ne. lia.
    + simplify_eq. split; [done|]. split; [done|].
      intros k Hk. simpl in Hk. apply lookup_total_insert_ne. lia.
Qed.

(** A pass that returns no error leaves every recorded length equal to the
    shard's length, and the snapshot of every shard it flushed on disk. *)
Lemma ToDisk_loop_ok (dir : string) (shards : list Shard) (i : nat)
    (dims dims' : gmap nat nat) (fs fs' : FS) :
  ToDisk_loop dir i shards dims fs = (dims', fs', None) ->
  forall j s, shards !! j = Some s ->
    dims' !!! (i + j)%nat = getLength s /\
    (dims !!! (i + j)%nat <> getLength s -> getLength s <> 0%nat ->
     exists body, json_Marshal (Data s) = inr body /\
       fs_files fs' !! file_of dir (i + j) = Some (snapshot body)).
Proof.
  revert i dims fs. induction shards as [|s rest IH]; intros i dims fs H j s' Hj;
    [done|]. simpl in H.
  destruct j as [|j]; simplify_eq/=.
  - rewrite Nat.add_0_r. case_decide as Hd.
    + destruct (ToDisk_loop_frame _ _ _ _ _ _ _ _ H) as (_ & _ & Hdims).
      rewrite Hdims by lia. done.
    + destruct (Flush s' (path_Join dir (shard_file i)) fs) as [fs1|e] eqn:Hfl; [|done].
      destruct (ToDisk_loop_frame _ _ _ _ _ _ _ _ H) as (_ & Hfiles & Hdims).
      rewrite Hdims by lia. rewrite lookup_total_insert_eq. split; [done|].
      intros _ Hne. destruct (Flush_Ok_inv _ _ _ _ Hfl Hne) as (body & Hb & _ & ->).
      exists body. split; [done|]. rewrite Hfiles.
      * simpl. apply lookup_insert_eq.
      * intros j s Hj Hf. apply file_of_inj in Hf. lia.
  - replace (i + S j)%nat with (S i + j)%nat by lia. case_decide as Hd.
    + by apply (IH _ _ _ H).
    + destruct (Flush s (path_Join dir (shard_file i)) fs) as [fs1|e] eqn:Hfl; [|done].
      destruct (IH _ _ _ H j s' Hj) as [H1 H2]. split; [done|].
      rewrite lookup_total_insert_ne in H2 by lia. done.
Qed.

(** A pass over shards whose lengths are the recorded ones does nothing. *)
Lemma ToDisk_loop_clean (dir : string) (shards : list Shard) (i : nat)
    (dims : gmap nat nat) (fs : FS) :
  (forall j s, shards !! j = Some s -> dims !!! (i + j)%nat = getLength s) ->
  ToDisk_loop dir i shards dims fs = (dims, fs, None).
Proof.
  revert i. induction shards as [|s rest IH]; intros i H; simpl; [done|].
  rewrite decide_True.
  - apply IH. intros j s' Hj.
    replace (S i + j)%nat with (i + S j)%nat by lia. by apply H.
  - rewrite <- (Nat.add_0_r i). by apply H.
Qed.


(** ** NewKVStoreFromDisk *)







(** ** Snapshot round trip *)

Lemma Put_frame (now : Z) (kv kv' : KVStore) (key : string) (value : any)
    (ttl : option float64) :
  Put now kv key value ttl = Some kv' ->
  shardDimensions kv' = shardDimensions kv /\ Directory kv' = Directory kv.
Proof. by intros (i & s & _ & _ & ->)%Put_inv. Qed.

Lemma Delete_frame (kv kv' : KVStore) (key : string) :
  Delete kv key = Some kv' ->
  shardDimensions kv' = shardDimensions kv /\ Directory kv' = Directory kv.
Proof. by intros (i & s & _ & _ & ->)%Delete_inv. Qed.







(** ** Change detection *)

Lemma KVStore_eta (kv : KVStore) :
  {| Shards := Shards kv; Directory := Directory kv;
     shardDimensions := shardDimensions kv |} = kv.
Proof. by destruct kv. Qed.

(** A pass over a store all of whose recorded lengths are current does
    nothing at all. *)
Lemma ToDisk_clean (kv : KVStore) (fs : FS) :
  (forall i s, Shards kv !! i = Some s -> shardDimensions kv !!! i = getLength s) ->
  ToDisk kv fs = (kv, fs, None).
Proof.
  intros H. unfold ToDisk. rewrite ToDisk_loop_clean by done. by rewrite KVStore_eta.
Qed.

Lemma ToDisk_ok_dims (kv kv1 : KVStore) (fs fs1 : FS) :
  ToDisk kv fs = (kv1, fs1, None) ->
  Shards kv1 = Shards kv /\ Directory kv1 = Directory kv /\
  forall i s, Shards kv !! i = Some s -> shardDimensions kv1 !!! i = getLength s.
Proof.
  unfold ToDisk. destruct (ToDisk_loop _ _ _ _ _) as [[dims fs'] err] eqn:Hloop.
  intros ?; simplify_eq/=. repeat split. intros i s Hs.
  by destruct (ToDisk_loop_ok _ _ _ _ _ _ _ Hloop i s Hs).
Qed.

Lemma ToDisk_loop_dims_clean (dir : string) (shards : list Shard) (i : nat)
    (dims dims' : gmap nat nat) (fs fs' : FS) (err : option error) :
  ToDisk_loop dir i shards dims fs = (dims', fs', err) ->
  forall j s, shards !! j = Some s -> dims !!! (i + j)%nat = getLength s ->
    dims' !!! (i + j)%nat = dims !!! (i + j)%nat.
Proof.
  revert i dims fs. induction shards as [|s0 rest IH]; intros i dims fs H j s Hj Hc; [done|].
  simpl in H. destruct j as [|j]; simplify_eq/=.
  - rewrite Nat.add_0_r in *. rewrite decide_True in H by done.
    destruct (ToDisk_loop_frame _ _ _ _ _ _ _ _ H) as (_ & _ & Hout). apply Hout. lia.
  - replace (i + S j)%nat with (S i + j)%nat in * by lia. case_decide as E.
    + by eapply IH.
    + destruct (Flush s0 (path_Join dir (shard_file i)) fs) as [fs1|e] eqn:Hfl.
      * erewrite IH; [|done..|].
        -- apply lookup_total_insert_ne. lia.
        -- by rewrite lookup_total_insert_ne by lia.
      * simplify_eq. apply lookup_total_insert_ne. lia.
Qed.

(** The file of a shard whose length is the recorded one is the same after
    a pass as before, and so is the recorded length, whatever the pass does
    to the other shards and whether or not it returns an error. *)
Lemma ToDisk_skips (kv : KVStore) (fs : FS) (i : nat) (s : Shard) :
  Shards kv !! i = Some s -> shardDimensions kv !!! i = getLength s ->
  fs_files (ToDisk kv fs).1.2 !! file_of (Directory kv) i
  = fs_files fs !! file_of (Directory kv) i /\
  shardDimensions (ToDisk kv fs).1.1 !!! i = shardDimensions kv !!! i.
Proof.
  intros Hs Hd. unfold ToDisk.
  destruct (ToDisk_loop _ _ _ _ _) as [[dims fs'] err] eqn:Hloop. simpl.
  destruct (ToDisk_loop_frame _ _ _ _ _ _ _ _ Hloop) as (_ & Hfiles & _). split.
  - apply Hfiles. intros j s' Hj Hf. apply file_of_inj in Hf. simplify_eq/=. by left.
  - by apply (ToDisk_loop_dims_clean _ _ _ _ _ _ _ _ Hloop i s).
Qed.

Lemma Put_existing_getLength (now : Z) (kv kv' : KVStore) (key : string) (value : any)
    (ttl : option float64) :
  Put now kv key value ttl = Some kv' -> is_Some (entry_of kv key) ->
  forall i, getLength <$> Shards kv' !! i = getLength <$> Shards kv !! i.
Proof.
  intros (j & s & Hj & Hs & ->)%Put_inv [e He] i.
  apply entry_of_Some in He as (j' & s' & ? & ? & He). simplify_eq.
  unfold set_shard. simpl. destruct (decide (i = j)) as [->|Hne].
  - rewrite list_lookup_insert_eq by (by eapply lookup_lt_Some). rewrite Hs. simpl.
    unfold getLength. simpl. f_equal. by apply map_size_insert_Some.
  - by rewrite list_lookup_insert_ne.
Qed.

(** C7. [ToDisk] leaves alone the file (and the recorded length) of every
    shard whose length equals the recorded one. Hence, after a [Put] and a
    pass that flushed the key's shard and returned no error, a second pass
    changes nothing on disk; and after the key is overwritten in place, a
    pass still changes nothing: the file keeps the snapshot taken before
    the update. *)
Theorem ToDisk_change_detection (kv kv0 kv1 kv2 : KVStore) (fs fs1 : FS) (now0 now : Z)
    (key : string) (value0 value : any) (ttl0 ttl : option float64) (i : nat) (s : Shard) :
  Put now0 kv key value0 ttl0 = Some kv0 ->
  findShard kv0 key = Some i -> Shards kv0 !! i = Some s ->
  shardDimensions kv0 !!! i <> getLength s ->
  ToDisk kv0 fs = (kv1, fs1, None) ->
  Put now kv1 key value ttl = Some kv2 ->
  (forall kv' fs' j s',
      Shards kv' !! j = Some s' -> shardDimensions kv' !!! j = getLength s' ->
      fs_files (ToDisk kv' fs').1.2 !! file_of (Directory kv') j
      = fs_files fs' !! file_of (Directory kv') j /\
      shardDimensions (ToDisk kv' fs').1.1 !!! j = shardDimensions kv' !!! j) /\
  (exists body, json_Marshal (Data s) = inr body /\
     fs_files fs1 !! file_of (Directory kv0) i = Some (snapshot body)) /\
  ToDisk kv1 fs1 = (kv1, fs1, None) /\
  ToDisk kv2 fs1 = (kv2, fs1, None).
Proof.
  intros Hput0 Hi Hs Hdirty Hdisk Hput. split; [|split; [|split]].
  - intros kv' fs' j s'. apply ToDisk_skips.
  - pose proof (entry_of_Put _ _ _ key _ _ _ Hput0) as He.
    rewrite decide_True in He by done.
    apply entry_of_Some in He as (i' & s' & ? & ? & He). simplify_eq.
    assert (getLength s <> 0%nat) as Hne.
    { unfold getLength. intros H0%map_size_empty_inv. by rewrite H0 in He. }
    unfold ToDisk in Hdisk.
    destruct (ToDisk_loop _ _ _ _ _) as [[dims fs'] err] eqn:Hloop. simplify_eq.
    destruct (ToDisk_loop_ok _ _ _ _ _ _ _ Hloop i s Hs) as [_ H].
    cbn [Nat.add] in H. by apply H.
  - destruct (ToDisk_ok_dims _ _ _ _ Hdisk) as (Hsh & _ & Hd).
    apply ToDisk_clean. by rewrite Hsh.
  - destruct (ToDisk_ok_dims _ _ _ _ Hdisk) as (Hsh & _ & Hd).
    apply ToDisk_clean. intros j s2 Hj.
    destruct (Put_frame _ _ _ _ _ _ Hput) as [-> _].
    assert (is_Some (entry_of kv1 key)) as Hsome.
    { rewrite (entry_of_Shards kv0 kv1) by done.
      rewrite (entry_of_Put _ _ _ key _ _ _ Hput0). rewrite decide_True by done. eauto. }
    pose proof (Put_existing_getLength _ _ _ _ _ _ Hput Hsome j) as Hlen.
    rewrite Hj, Hsh in Hlen. simpl in Hlen.
    destruct (Shards kv0 !! j) as [s0|] eqn:Hj0; simplify_eq/=.
    rewrite (Hd j s0 Hj0). congruence.
Qed.

(** ** A flush that fails *)

Lemma ToDisk_loop_fail (dir : string) (shards : list Shard) (i j : nat)
    (dims : gmap nat nat) (fs : FS) (s : Shard) (e : error) :
  shards !! j = Some s ->
  (forall j' s', (j' < j)%nat -> shards !! j' = Some s' ->
     dims !!! (i + j')%nat = getLength s') ->
  dims !!! (i + j)%nat <> getLength s ->
  Flush s (file_of dir (i + j)) fs = Err e ->
  ToDisk_loop dir i shards dims fs = (<[(i + j)%nat := getLength s]> dims, fs, Some e).
Proof.
  revert i j. induction shards as [|s0 rest IH]; intros i j Hj Hclean Hdirty Hfl; [done|].
  simpl. destruct j as [|j]; simplify_eq/=.
  - rewrite Nat.add_0_r in *. rewrite decide_False by done.
    unfold file_of in Hfl. by rewrite Hfl.
  - replace (i + S j)%nat with (S i + j)%nat in * by lia.
    rewrite decide_True.
    + apply IH; [done| |done..]. intros j' s' Hlt Hj'.
      replace (S i + j')%nat with (i + S j')%nat by lia. apply (Hclean (S j')); [lia|done].
    + rewrite <- (Nat.add_0_r i). apply (Hclean 0%nat); [lia|done].
Qed.

(** C8, second half. When the flush of shard [i] fails, [ToDisk] has
    already recorded the shard's length: it returns the error with the
    length recorded and nothing written, and a later pass over the same
    shard, on whatever disk, skips it and leaves its file as it finds
    it. *)
Theorem ToDisk_records_length_of_failed_flush (kv : KVStore) (fs fs2 : FS) (i : nat)
    (s : Shard) (e : error) :
  Shards kv !! i = Some s ->
  (forall j s', (j < i)%nat -> Shards kv !! j = Some s' ->
     shardDimensions kv !!! j = getLength s') ->
  shardDimensions kv !!! i <> getLength s ->
  Flush s (file_of (Directory kv) i) fs = Err e ->
  exists kv1, ToDisk kv fs = (kv1, fs, Some e) /\
    Shards kv1 = Shards kv /\ Directory kv1 = Directory kv /\
    shardDimensions kv1 !!! i = getLength s /\
    fs_files (ToDisk kv1 fs2).1.2 !! file_of (Directory kv) i
    = fs_files fs2 !! file_of (Directory kv) i.
Proof.
  intros Hs Hclean Hdirty Hfl. unfold ToDisk at 1.
  rewrite (ToDisk_loop_fail _ _ 0 i _ _ s e); [|done..].
  eexists. split; [done|]. simpl. split; [done|]. split; [done|].
  rewrite lookup_total_insert_eq. split; [done|].
  pose proof (ToDisk_skips
    {| Shards := Shards kv; Directory := Directory kv;
       shardDimensions := <[i:=getLength s]> (shardDimensions kv) |} fs2 i s) as [H _];
    [done|apply lookup_total_insert_eq|]. done.
Qed.

(** ** Deleting every key of a flushed shard *)




(** ** Integrity *)


Lemma md5_Sum_length (data : string) : String.length (md5.Sum data) = 16%nat.
Proof.
  unfold md5.Sum, md5.sum_bytes. by destruct (md5.blocks _ _ _) as [a b c d].
Qed.

Lemma string_of_bytes_length (l : list Z) : String.length (string_of_bytes l) = length l.
Proof.
  unfold string_of_bytes. induction l as [|v l IH]; [done|].
  rewrite fmap_cons. simpl. by rewrite IH.
Qed.

Lemma bytes_of_length (s : string) : length (bytes_of s) = String.length s.
Proof.
  rewrite <- (string_of_bytes_of s) at 2. by rewrite string_of_bytes_length.
Qed.











(** * Further properties of the engine *)

(** ** Put *)

(** [Put] replaces the entry of the key in the shard the key is routed to:
    that shard grows by one entry when the key is new and keeps its length
    when the key is stored already; no other shard, recorded length or
    directory name changes. *)
Theorem Put_shard_lengths (now : Z) (kv kv' : KVStore) (key : string) (value : any)
    (ttl : option float64) :
  Put now kv key value ttl = Some kv' ->
  exists i s s',
    findShard kv key = Some i /\ Shards kv !! i = Some s /\ Shards kv' !! i = Some s' /\
    Data s' = <[key := NewShardEntry now value (stored_ttl ttl)]> (Data s) /\
    getLength s' = (if Data s !! key is Some _ then getLength s else S (getLength s)) /\
    (forall j, j <> i -> Shards kv' !! j = Shards kv !! j) /\
    length (Shards kv') = length (Shards kv) /\
    shardDimensions kv' = shardDimensions kv /\ Directory kv' = Directory kv.
Proof.
  intros (i & s & Hi & Hs & ->)%Put_inv. eexists i, s, _.
  split; [done|]. split; [done|]. split.
  { unfold set_shard. cbn [Shards]. apply list_lookup_insert_eq. by eapply lookup_lt_Some. }
  split; [done|]. split.
  { unfold getLength. cbn [Data]. rewrite map_size_insert.
    by destruct (Data s !! key). }
  split.
  { intros j Hj. unfold set_shard. cbn [Shards]. by apply list_lookup_insert_ne. }
  split; [apply set_shard_length|done].
Qed.

(** The sign of [float64(d)] is the sign of [d]. *)
Lemma of_int_negative (d : Z) :
  d < 0 ->
  f64.of_int d = S754_zero true \/ f64.of_int d = S754_infinity true \/
  exists m e, f64.of_int d = S754_finite true m e.
Proof.
  intros Hd. destruct d as [|p|p]; [lia..|].
  unfold f64.of_int, binary_normalize, binary_round.
  destruct (shl_align _ _ _) as [mz ez].
  apply binary_round_aux_sign. lia.
Qed.

(** An entry is not expired while the elapsed time is not positive,
    whatever its time to live. *)
Lemma not_expired_nonpositive_elapsed (d : Z) (ttl : float64) :
  d <= 0 -> f64.gtb ttl f64.zero && f64.gtb (f64.of_int d) ttl = false.
Proof.
  intros Hd. destruct (decide (d = 0)) as [->|Hne].
  - by destruct ttl as [[]|[]| |[] m e].
  - destruct (of_int_negative d) as [->|[->|(m' & e' & ->)]]; [lia|..];
      by destruct ttl as [[]|[]| |[] m e].
Qed.

Lemma int64_sub_diag (now : Z) : int64_sub now now = 0.
Proof. unfold int64_sub. by rewrite Z.sub_diag. Qed.

(** A [Get] at the clock reading of the [Put], or at any reading that is
    not later, returns the value, whatever time to live was given (also a
    tiny, negative, infinite or NaN one). *)
Theorem Get_at_Put_time (now now' : Z) (kv kv' : KVStore) (key : string) (value : any)
    (ttl : option float64) :
  Put now kv key value ttl = Some kv' ->
  int64_sub now' now <= 0 ->
  Get now' kv' key = Some (Ok value) /\ Get now kv' key = Some (Ok value).
Proof.
  intros Hput Hd.
  pose proof (entry_of_Put _ _ _ key _ _ _ Hput) as He. rewrite decide_True in He by done.
  rewrite !(Get_entry_of _ _ _ _ He). unfold expired. cbn [Ttl Timestamp Value NewShardEntry].
  rewrite (not_expired_nonpositive_elapsed _ _ Hd).
  rewrite not_expired_nonpositive_elapsed; [done|]. by rewrite int64_sub_diag.
Qed.

(** ** Delete and missing keys *)

Lemma Shard_eta (s : Shard) : {| Data := Data s |} = s.
Proof. by destruct s. Qed.

Lemma set_shard_id (kv : KVStore) (i : nat) (s : Shard) :
  Shards kv !! i = Some s -> set_shard kv i s = kv.
Proof.
  intros Hs. unfold set_shard. rewrite list_insert_id by done. apply KVStore_eta.
Qed.

(** After [Delete(k)], [Get(k)] answers [KeyNotFoundError]; every other key
    keeps its entry; and deleting a key that is not stored leaves the store
    exactly as it was. *)
Theorem Delete_Get (now : Z) (kv kv' : KVStore) (key : string) :
  Delete kv key = Some kv' ->
  Get now kv' key = Some (Err (KeyNotFoundError key)) /\
  (forall key', key' <> key -> entry_of kv' key' = entry_of kv key') /\
  (entry_of kv key = None -> kv' = kv).
Proof.
  intros Hdel. split; [|split].
  - apply Get_entry_of_None.
    + rewrite (Delete_length _ _ _ Hdel).
      apply Delete_inv in Hdel as (i & s & Hi & _). apply findShard_lt in Hi. lia.
    + rewrite (entry_of_Delete _ _ _ _ Hdel). by rewrite decide_True.
  - intros key' Hne. rewrite (entry_of_Delete _ _ _ _ Hdel). by rewrite decide_False.
  - intros Hnone. apply Delete_inv in Hdel as (i & s & Hi & Hs & ->).
    unfold entry_of in Hnone. rewrite Hi in Hnone. cbn in Hnone. rewrite Hs in Hnone.
    cbn in Hnone. rewrite delete_id by done. rewrite Shard_eta. by apply set_shard_id.
Qed.

(** ** NewKVStore *)

(** [NewKVStore(N, dir)] has [N] empty shards, the directory name, and 0
    as every recorded length. With [N > 0] every [Get] answers
    [KeyNotFoundError]; with [N = 0] every [Put], [Get] and [Delete] panics
    (the routing divides by the number of shards). *)
Theorem NewKVStore_empty (N : nat) (dir : string) :
  length (Shards (NewKVStore N dir)) = N /\
  (forall i s, Shards (NewKVStore N dir) !! i = Some s -> s = NewShard) /\
  Directory (NewKVStore N dir) = dir /\
  (forall i, shardDimensions (NewKVStore N dir) !!! i = 0%nat) /\
  (forall now key, (0 < N)%nat ->
     Get now (NewKVStore N dir) key = Some (Err (KeyNotFoundError key))) /\
  (forall now key value ttl, N = 0%nat ->
     Put now (NewKVStore N dir) key value ttl = None /\
     Get now (NewKVStore N dir) key = None /\
     Delete (NewKVStore N dir) key = None).
Proof.
  assert (forall i s, Shards (NewKVStore N dir) !! i = Some s -> s = NewShard) as Hempty.
  { intros i s. rewrite NewKVStore_Shards. by intros [-> _]%lookup_replicate. }
  split; [by rewrite NewKVStore_Shards, length_replicate|]. split; [done|].
  split; [apply NewKVStore_Directory|]. split; [apply NewKVStore_dims|]. split.
  - intros now key HN. apply Get_entry_of_None.
    + by rewrite NewKVStore_Shards, length_replicate.
    + destruct (entry_of (NewKVStore N dir) key) as [e|] eqn:He; [|done].
      apply entry_of_Some in He as (i & s & _ & Hs & He).
      apply Hempty in Hs. subst s. unfold NewShard in He. cbn [Data] in He.
      by rewrite lookup_empty in He.
  - intros now key value ttl ->.
    unfold Put, Get, Delete, findShard. rewrite NewKVStore_Shards. done.
Qed.

(** ** Eviction *)

Lemma Evict_Data_filter (now : Z) (s : Shard) :
  Data (Evict now s) = filter (fun p => expired now p.2 = false) (Data s).
Proof.
  apply map_eq. intros key. rewrite Evict_lookup, map_lookup_filter.
  destruct (Data s !! key) as [e|]; cbn; [|done].
  destruct (expired now e) eqn:E.
  - by rewrite option_guard_False by (cbn; congruence).
  - by rewrite option_guard_True.
Qed.

Lemma Evict_idem (now : Z) (s : Shard) : Evict now (Evict now s) = Evict now s.
Proof.
  assert (Data (Evict now (Evict now s)) = Data (Evict now s)) as Hd.
  { rewrite (Evict_Data_filter now (Evict now s)). apply map_filter_id.
    intros k e He. rewrite Evict_Data_filter in He.
    by apply map_lookup_filter_Some in He as [_ He]. }
  rewrite <- (Shard_eta (Evict now (Evict now s))), Hd. apply Shard_eta.
Qed.

(** [Evict] is the filter that keeps the entries not expired at its clock
    reading: nothing else is removed and nothing is added; the shard does
    not grow; and a second eviction at the same reading changes nothing. *)
Theorem Evict_filter (now : Z) (s : Shard) :
  Data (Evict now s) = filter (fun p => expired now p.2 = false) (Data s) /\
  (getLength (Evict now s) <= getLength s)%nat /\
  Evict now (Evict now s) = Evict now s.
Proof.
  split; [apply Evict_Data_filter|]. split; [|apply Evict_idem].
  unfold getLength. rewrite Evict_Data_filter.
  apply map_subseteq_size, map_filter_subseteq.
Qed.

(** An expired entry stays in its shard and is reported as expired by
    [Get]; once [Cleanup] has evicted the key's shard at a clock reading at
    which the entry is expired, [Get] answers [KeyNotFoundError]. *)
Theorem expired_until_Cleanup (kv : KVStore) (now' : Z) (key : string)
    (e : ShardEntry) (i : nat) (clock : nat -> Z) :
  entry_of kv key = Some e -> findShard kv key = Some i ->
  expired (clock i) e = true ->
  Get (clock i) kv key
  = Some (Err (ExpiredEntryError key (int64_sub (clock i) (Timestamp e)) (Ttl e))) /\
  Get now' (Cleanup clock kv) key = Some (Err (KeyNotFoundError key)).
Proof.
  intros He Hi Hexp. split.
  - by rewrite (Get_entry_of _ _ _ _ He), Hexp.
  - apply Get_entry_of_None.
    + rewrite Cleanup_length. apply findShard_lt in Hi. lia.
    + apply entry_of_Some in He as (i' & s & Hi' & Hs & He).
      assert (i' = i) as -> by congruence.
      unfold entry_of. rewrite (findShard_length kv) by apply Cleanup_length.
      rewrite Hi. cbn [mbind option_bind]. rewrite Cleanup_Shards_lookup, Hs.
      cbn [fmap option_fmap option_map mbind option_bind].
      by rewrite Evict_lookup, He; cbn; rewrite Hexp.
Qed.

(** ** Routing of the stored keys *)

Lemma well_routed_step (w w' : world) (o : op) :
  step w o = Some w' -> well_routed (store w) -> well_routed (store w').
Proof.
  intros Hstep Hwr.
  assert (forall kv', length (Shards kv') = length (Shards (store w)) ->
            (forall j s' k, Shards kv' !! j = Some s' -> is_Some (Data s' !! k) ->
               findShard (store w) k = Some j \/
               exists s, Shards (store w) !! j = Some s /\ is_Some (Data s !! k)) ->
            well_routed kv') as Hgen.
  { intros kv' Hlen H j s' k Hj Hk. rewrite (findShard_length (store w)) by done.
    destruct (H j s' k Hj Hk) as [?|(s & Hs & Hsk)]; [done|]. by eapply Hwr. }
  destruct o as [now key value ttl|now key|key|clock|]; cbn in Hstep.
  - destruct (Put now (store w) key value ttl) as [kv'|] eqn:Hput; [|done].
    injection Hstep as <-. cbn [store].
    apply Hgen; [by eapply Put_length|].
    apply Put_inv in Hput as (i & s & Hi & Hs & ->). intros j s' k Hj Hk.
    unfold set_shard in Hj. cbn [Shards] in Hj.
    destruct (decide (j = i)) as [->|Hne].
    + rewrite list_lookup_insert_eq in Hj by (by eapply lookup_lt_Some).
      injection Hj as <-. cbn [Data] in Hk.
      destruct (decide (k = key)) as [->|Hk']; [by left|].
      rewrite lookup_insert_ne in Hk by done. right. eauto.
    + rewrite list_lookup_insert_ne in Hj by done. right. eauto.
  - destruct (Get now (store w) key); [|done]. by injection Hstep as <-.
  - destruct (Delete (store w) key) as [kv'|] eqn:Hdel; [|done].
    injection Hstep as <-. cbn [store].
    apply Hgen; [by eapply Delete_length|].
    apply Delete_inv in Hdel as (i & s & Hi & Hs & ->). intros j s' k Hj Hk.
    unfold set_shard in Hj. cbn [Shards] in Hj. right.
    destruct (decide (j = i)) as [->|Hne].
    + rewrite list_lookup_insert_eq in Hj by (by eapply lookup_lt_Some).
      injection Hj as <-. cbn [Data] in Hk. exists s. split; [done|].
      destruct Hk as [e He]. apply lookup_delete_Some in He as [_ He]. eauto.
    + rewrite list_lookup_insert_ne in Hj by done. eauto.
  - injection Hstep as <-. cbn [store]. apply Hgen; [apply Cleanup_length|].
    intros j s' k Hj Hk. right. rewrite Cleanup_Shards_lookup in Hj.
    destruct (Shards (store w) !! j) as [s|]; [|done]. injection Hj as <-.
    exists s. split; [done|]. destruct Hk as [e He]. rewrite Evict_lookup in He.
    destruct (Data s !! k) as [e'|]; [eauto|done].
  - pose proof (ToDisk_Shards (store w) (disk w)) as [Hs _].
    destruct (ToDisk (store w) (disk w)) as [[kv fs] err]. injection Hstep as <-.
    cbn [store fst] in *. apply Hgen; [by rewrite Hs|].
    intros j s' k Hj Hk. right. rewrite Hs in Hj. eauto.
Qed.

(** On a store reached from [NewKVStore] by any operations, an entry held by
    a shard is held by the shard its key is routed to, so [Get] finds it, and
    no key is held by two shards. *)
Theorem stored_keys_are_routed (N : nat) (dir : string) (fs : FS) (ops : list op)
    (w : world) :
  run {| store := NewKVStore N dir; disk := fs |} ops = Some w ->
  (forall i s key e, Shards (store w) !! i = Some s -> Data s !! key = Some e ->
     findShard (store w) key = Some i /\ entry_of (store w) key = Some e) /\
  (forall i j s s' key,
     Shards (store w) !! i = Some s -> Shards (store w) !! j = Some s' ->
     is_Some (Data s !! key) -> is_Some (Data s' !! key) -> i = j).
Proof.
  intros Hrun.
  assert (well_routed (store w)) as Hwr.
  { assert (well_routed (store {| store := NewKVStore N dir; disk := fs |})) as H0.
    { intros i s key Hs [e He]. cbn [store] in Hs.
      rewrite NewKVStore_Shards in Hs. apply lookup_replicate in Hs as [-> _].
      unfold NewShard in He. cbn [Data] in He. by rewrite lookup_empty in He. }
    revert Hrun H0. generalize {| store := NewKVStore N dir; disk := fs |}.
    induction ops as [|o ops IH]; intros w0 Hrun H0; cbn in Hrun.
    - by injection Hrun as <-.
    - destruct (step w0 o) as [w1|] eqn:Hstep; [|done]. cbn in Hrun.
      eapply IH; [done|]. by eapply well_routed_step. }
  split.
  - intros i s key e Hs He. assert (findShard (store w) key = Some i) as Hi.
    { eapply Hwr; eauto. }
    split; [done|]. apply entry_of_Some. eauto.
  - intros i j s s' key Hs Hs' Hk Hk'.
    pose proof (Hwr i s key Hs Hk). pose proof (Hwr j s' key Hs' Hk'). congruence.
Qed.

(** ** float64 on whole numbers *)

Lemma digits2_pos_size (p : positive) : digits2_pos p = Pos.size p.
Proof. induction p as [p IH|p IH|]; simpl; by rewrite ?IH. Qed.

Lemma digits2_pos_bounds (p : positive) :
  2 ^ (Z.pos (digits2_pos p) - 1) <= Z.pos p < 2 ^ Z.pos (digits2_pos p).
Proof.
  rewrite digits2_pos_size.
  pose proof (Pos.size_gt p) as Hgt. pose proof (Pos.size_le p) as Hle.
  apply Pos2Z.pos_lt_pos in Hgt. apply Pos2Z.pos_le_pos in Hle.
  rewrite Pos2Z.inj_pow in Hgt, Hle.
  assert (2 ^ Z.pos (Pos.size p) = 2 * 2 ^ (Z.pos (Pos.size p) - 1)) as E.
  { rewrite <- Z.pow_succ_r by lia. f_equal. lia. }
  change (Z.pos 2) with 2 in *. lia.
Qed.

Lemma iter_xO_mul (p k : positive) : Z.pos (Pos.iter xO p k) = Z.pos p * 2 ^ Z.pos k.
Proof.
  induction k as [|k IH] using Pos.peano_ind.
  - simpl. lia.
  - rewrite Pos.iter_succ, Pos2Z.inj_xO, IH, Pos2Z.inj_succ, Z.pow_succ_r by lia. lia.
Qed.

Lemma iter_xO_digits (p k : positive) :
  digits2_pos (Pos.iter xO p k) = (digits2_pos p + k)%positive.
Proof.
  induction k as [|k IH] using Pos.peano_ind.
  - simpl. lia.
  - rewrite Pos.iter_succ. simpl. rewrite IH. lia.
Qed.

Lemma shr_fexp_canonical (mz : positive) (ez : Z) :
  Z.pos (digits2_pos mz) = 53 -> -1074 <= ez ->
  shr_fexp f64.prec f64.emax (Z.pos mz) ez loc_Exact
  = ({| shr_m := Z.pos mz; shr_r := false; shr_s := false |}, ez).
Proof.
  intros Hd He. unfold shr_fexp, shr. cbn [Zdigits2 shr_record_of_loc]. rewrite Hd.
  unfold fexp, emin, f64.prec, f64.emax.
  by replace (Z.max (53 + ez - 53) (3 - 1024 - 53) - ez) with 0 by lia.
Qed.

(** A mantissa of 53 digits with an exponent in range is what rounding gives back. *)
Lemma binary_round_aux_exact (sx : bool) (mz : positive) (ez : Z) :
  Z.pos (digits2_pos mz) = 53 -> -1074 <= ez <= 971 ->
  binary_round_aux f64.prec f64.emax sx (Z.pos mz) ez loc_Exact = S754_finite sx mz ez.
Proof.
  intros Hd He. unfold binary_round_aux.
  rewrite shr_fexp_canonical by (done || lia).
  cbn [shr_m loc_of_shr_record round_nearest_even].
  rewrite shr_fexp_canonical by (done || lia). cbn [shr_m]. unfold f64.emax, f64.prec.
  destruct (Z.leb_spec ez (1024 - 53)); [done|lia].
Qed.

Lemma binary_round_small (sx : bool) (p : positive) :
  Z.pos p < 2 ^ 53 ->
  binary_round f64.prec f64.emax sx p 0 = S754_finite sx (canon_m p) (canon_e p).
Proof.
  intros Hp.
  assert (Z.pos (digits2_pos p) <= 53) as Hd.
  { pose proof (digits2_pos_bounds p) as [Hlo _].
    destruct (Z.le_gt_cases (Z.pos (digits2_pos p)) 53) as [|Hgt]; [done|].
    assert (2 ^ 53 <= 2 ^ (Z.pos (digits2_pos p) - 1)) by (apply Z.pow_le_mono_r; lia). lia. }
  unfold binary_round, shl_align, fexp, emin, f64.prec, f64.emax, canon_m, canon_e.
  replace (Z.max (Z.pos (digits2_pos p) + 0 - 53) (3 - 1024 - 53) - 0)
    with (Z.pos (digits2_pos p) - 53) by lia.
  replace (Z.max (Z.pos (digits2_pos p) + 0 - 53) (3 - 1024 - 53))
    with (Z.pos (digits2_pos p) - 53) by lia.
  destruct (Z.pos (digits2_pos p) - 53) as [|k|k] eqn:Hk.
  - replace (53 - Z.pos (digits2_pos p)) with 0 by lia.
    rewrite <- Hk. change 53 with f64.prec at 1. change 1024 with f64.emax.
    replace (Z.pos (digits2_pos p) - 53) with 0 by lia.
    apply binary_round_aux_exact; lia.
  - lia.
  - replace (53 - Z.pos (digits2_pos p)) with (Z.pos k) by lia.
    apply binary_round_aux_exact; [|lia].
    rewrite iter_xO_digits. lia.
Qed.

Lemma digits_small (p : positive) : Z.pos p < 2 ^ 53 -> Z.pos (digits2_pos p) <= 53.
Proof.
  intros Hp. pose proof (digits2_pos_bounds p) as [Hlo _].
  destruct (Z.le_gt_cases (Z.pos (digits2_pos p)) 53) as [|Hgt]; [done|].
  assert (2 ^ 53 <= 2 ^ (Z.pos (digits2_pos p) - 1)) by (apply Z.pow_le_mono_r; lia). lia.
Qed.

Lemma canon_m_mul (p : positive) :
  Z.pos p < 2 ^ 53 ->
  Z.pos (canon_m p) = Z.pos p * 2 ^ (53 - Z.pos (digits2_pos p)).
Proof.
  intros Hp. pose proof (digits_small p Hp). unfold canon_m.
  destruct (53 - Z.pos (digits2_pos p)) as [|k|k] eqn:Hk; [simpl; lia| |lia].
  apply iter_xO_mul.
Qed.

Lemma compare_canon (p q : positive) :
  Z.pos p < 2 ^ 53 -> Z.pos q < 2 ^ 53 ->
  match canon_e p ?= canon_e q with
  | Lt => Lt
  | Gt => Gt
  | Eq => Pos.compare_cont Eq (canon_m p) (canon_m q)
  end = (p ?= q)%positive.
Proof.
  intros Hp Hq. unfold canon_e.
  pose proof (digits2_pos_bounds p) as [Hp1 Hp2].
  pose proof (digits2_pos_bounds q) as [Hq1 Hq2].
  destruct (Z.compare_spec (Z.pos (digits2_pos p) - 53) (Z.pos (digits2_pos q) - 53))
    as [E|L|G].
  - change (Pos.compare_cont Eq (canon_m p) (canon_m q))
      with (Z.pos (canon_m p) ?= Z.pos (canon_m q)).
    rewrite !canon_m_mul by done.
    replace (Z.pos (digits2_pos q)) with (Z.pos (digits2_pos p)) by lia.
    rewrite <- Zmult_compare_compat_r; [done|].
    apply Z.lt_gt, Z.pow_pos_nonneg; [lia|]. pose proof (digits_small p Hp). lia.
  - symmetry. apply Pos.compare_lt_iff. apply Pos2Z.pos_lt_pos.
    assert (2 ^ Z.pos (digits2_pos p) <= 2 ^ (Z.pos (digits2_pos q) - 1))
      by (apply Z.pow_le_mono_r; lia). lia.
  - symmetry. apply Pos.compare_gt_iff. apply Pos2Z.pos_lt_pos.
    assert (2 ^ Z.pos (digits2_pos q) <= 2 ^ (Z.pos (digits2_pos p) - 1))
      by (apply Z.pow_le_mono_r; lia). lia.
Qed.

Lemma of_int_pos (p : positive) :
  Z.pos p < 2 ^ 53 -> f64.of_int (Z.pos p) = S754_finite false (canon_m p) (canon_e p).
Proof. apply binary_round_small. Qed.

Lemma of_int_neg (p : positive) :
  Z.pos p < 2 ^ 53 -> f64.of_int (Z.neg p) = S754_finite true (canon_m p) (canon_e p).
Proof. apply binary_round_small. Qed.

(** On integers below [2^53] in absolute value the conversion to [float64]
    is exact: the floats compare as the integers do. *)
Lemma of_int_compare (a b : Z) :
  Z.abs a < 2 ^ 53 -> Z.abs b < 2 ^ 53 ->
  SFcompare (f64.of_int a) (f64.of_int b) = Some (a ?= b).
Proof.
  intros Ha Hb.
  destruct a as [|p|p], b as [|q|q];
    rewrite ?of_int_pos, ?of_int_neg by (simpl in *; lia); try done.
  - cbn [SFcompare]. by rewrite compare_canon by (simpl in *; lia).
  - cbn [SFcompare Z.compare]. rewrite <- (compare_canon p q) by (simpl in *; lia).
    by destruct (canon_e p ?= canon_e q).
Qed.

Lemma of_int_gtb (a b : Z) :
  Z.abs a < 2 ^ 53 -> Z.abs b < 2 ^ 53 ->
  f64.gtb (f64.of_int a) (f64.of_int b) = (b <? a).
Proof.
  intros Ha Hb. unfold f64.gtb, SFltb, Z.ltb. by rewrite of_int_compare.
Qed.

Lemma iter_pos_Pos_iter {A} (f : A -> A) (n : positive) (x : A) :
  iter_pos f n x = Pos.iter f x n.
Proof.
  revert x. induction n as [n IH|n IH|]; intros x; simpl; [|by rewrite !IH|done].
  rewrite !IH. by rewrite <- !Pos.iter_swap.
Qed.

(** Shifting out zeros loses nothing. *)
Lemma shr_iter_xO (m k : positive) :
  iter_pos shr_1 k {| shr_m := Z.pos (Pos.iter xO m k); shr_r := false; shr_s := false |}
  = {| shr_m := Z.pos m; shr_r := false; shr_s := false |}.
Proof.
  rewrite iter_pos_Pos_iter. induction k as [|k IH] using Pos.peano_ind; [done|].
  rewrite !Pos.iter_succ. rewrite <- Pos.iter_swap. simpl. apply IH.
Qed.

Lemma digits_mul_pow2 (p : positive) (k : Z) :
  0 <= k ->
  forall q, Z.pos q = Z.pos p * 2 ^ k -> Z.pos (digits2_pos q) = Z.pos (digits2_pos p) + k.
Proof.
  intros Hk q Hq. destruct k as [|k|k]; [|clear Hk|lia].
  - assert (q = p) as -> by lia. lia.
  - rewrite <- iter_xO_mul in Hq. injection Hq as ->. rewrite iter_xO_digits. lia.
Qed.

(** [float64(n) * 1000 = float64(1000 * n)] as long as [1000 * n] is below
    [2^53]: a whole number of seconds is turned into milliseconds exactly. *)
Lemma mul_1000_exact (n : Z) :
  Z.abs (1000 * n) < 2 ^ 53 ->
  f64.mul (f64.of_int n) (f64.of_int 1000) = f64.of_int (1000 * n).
Proof.
  intros Hn.
  assert (forall sx (p : positive), Z.pos (1000 * p) < 2 ^ 53 ->
            binary_round_aux f64.prec f64.emax sx
              (Z.pos (canon_m p * 8796093022208000)) (canon_e p + -43) loc_Exact
            = S754_finite sx (canon_m (1000 * p)) (canon_e (1000 * p))) as Hmain.
  { intros sx p Hp.
    assert (Z.pos p < 2 ^ 53) as Hp' by lia.
    pose proof (digits_small _ Hp) as Hd1000. pose proof (digits_small _ Hp') as Hd.
    set (d := Z.pos (digits2_pos p)) in *.
    set (D := Z.pos (digits2_pos (1000 * p))) in *.
    assert (d + 9 <= D) as HdD.
    { pose proof (digits2_pos_bounds p) as [Hlo _].
      pose proof (digits2_pos_bounds (1000 * p)) as [_ Hhi]. fold d in Hlo. fold D in Hhi.
      destruct (Z.le_gt_cases (d + 9) D) as [|Hgt]; [done|].
      assert (2 ^ D <= 2 ^ (d + 8)) by (apply Z.pow_le_mono_r; lia).
      assert (2 ^ (d + 8) = 512 * 2 ^ (d - 1)) as E.
      { replace (d + 8) with (9 + (d - 1)) by lia. rewrite Z.pow_add_r by lia. done. }
      lia. }
    (* the product is the canonical mantissa of 1000 p, shifted *)
    set (k := D - d + 43).
    assert (Z.pos (canon_m p * 8796093022208000) = Z.pos (canon_m (1000 * p)) * 2 ^ k) as HM.
    { rewrite Pos2Z.inj_mul, !canon_m_mul by done. fold d D.
      change (Z.pos 8796093022208000) with (1000 * 2 ^ 43). rewrite Pos2Z.inj_mul.
      replace (2 ^ (53 - d)) with (2 ^ (53 - D) * 2 ^ (D - d)).
      - unfold k. rewrite (Z.pow_add_r 2 (D - d) 43) by lia.
        ring.
      - rewrite <- Z.pow_add_r by lia. f_equal. lia. }
    assert (Z.pos (digits2_pos (canon_m (1000 * p))) = 53) as Hc.
    { rewrite (digits_mul_pow2 (1000 * p) (53 - D)); [fold D; lia|lia|].
      by rewrite canon_m_mul. }
    destruct k as [|kp|kp] eqn:Hk; [lia| |lia].
    rewrite <- iter_xO_mul in HM. injection HM as HM.
    assert (shr_fexp f64.prec f64.emax (Z.pos (canon_m p * 8796093022208000))
              (canon_e p + -43) loc_Exact
            = ({| shr_m := Z.pos (canon_m (1000 * p)); shr_r := false; shr_s := false |},
               canon_e (1000 * p))) as Hshr.
    { unfold shr_fexp, shr. cbn [Zdigits2 shr_record_of_loc]. rewrite HM.
      rewrite iter_xO_digits, Pos2Z.inj_add, Hc.
      unfold fexp, emin, f64.prec, f64.emax, canon_e. fold d D.
      replace (Z.max (53 + Z.pos kp + (d - 53 + -43) - 53) (3 - 1024 - 53)
               - (d - 53 + -43)) with (Z.pos kp) by lia.
      rewrite shr_iter_xO. f_equal. lia. }
    unfold binary_round_aux. rewrite Hshr.
    cbn [shr_m loc_of_shr_record round_nearest_even].
    rewrite shr_fexp_canonical by (done || (unfold canon_e; fold D; lia)).
    cbn [shr_m]. unfold f64.emax, f64.prec, canon_e. fold D.
    destruct (Z.leb_spec (D - 53) (1024 - 53)); [done|lia]. }
  replace (f64.of_int 1000) with (S754_finite false 8796093022208000 (-43)) by (by vm_compute).
  destruct n as [|p|p].
  - done.
  - rewrite of_int_pos by lia. change (1000 * Z.pos p) with (Z.pos (1000 * p)).
    rewrite of_int_pos by lia. unfold f64.mul, SFmul. cbn [xorb]. apply Hmain. lia.
  - rewrite of_int_neg by lia. change (1000 * Z.neg p) with (Z.neg (1000 * p)).
    rewrite of_int_neg by lia. unfold f64.mul, SFmul. cbn [xorb]. apply Hmain. lia.
Qed.

Lemma int64_sub_small (a b : Z) : Z.abs (a - b) < 2 ^ 53 -> int64_sub a b = a - b.
Proof.
  intros H. unfold int64_sub, int64_wrap.
  assert (2 ^ 53 < 2 ^ 63) by (by vm_compute).
  assert (2 ^ 64 = 2 * 2 ^ 63) by (by vm_compute).
  rewrite Z.mod_small; lia.
Qed.

Lemma expired_whole_milliseconds (now : Z) (e : ShardEntry) (n : Z) :
  Ttl e = f64.of_int n -> Z.abs n < 2 ^ 53 -> Z.abs (now - Timestamp e) < 2 ^ 53 ->
  expired now e = (0 <? n) && (n <? now - Timestamp e).
Proof.
  intros Httl Hn Hd. unfold expired. rewrite Httl, int64_sub_small by done.
  change f64.zero with (f64.of_int 0). by rewrite !of_int_gtb by (done || by vm_compute).
Qed.

(** For an entry whose time to live is a whole number [n] of milliseconds,
    on clock readings less than [2^53] ms apart, the test that [Get] makes
    in [float64] is the test on the integers: the entry is expired exactly
    when [0 < n < now - timestamp]. *)
Theorem Get_expiry_whole_milliseconds (now : Z) (kv : KVStore) (key : string)
    (e : ShardEntry) (n : Z) :
  entry_of kv key = Some e -> Ttl e = f64.of_int n ->
  Z.abs n < 2 ^ 53 -> Z.abs (now - Timestamp e) < 2 ^ 53 ->
  Get now kv key
  = Some (if (0 <? n) && (n <? now - Timestamp e)
          then Err (ExpiredEntryError key (now - Timestamp e) (f64.of_int n))
          else Ok (Value e)).
Proof.
  intros He Httl Hn Hd. rewrite (Get_entry_of _ _ _ _ He).
  rewrite (expired_whole_milliseconds now e n), int64_sub_small by done.
  by rewrite Httl.
Qed.

(** [Put] with a time to live of [n] whole seconds stores exactly [1000 * n]
    milliseconds, and a later [Get] answers [ExpiredEntryError] exactly when
    more than [1000 * n] milliseconds have passed ([n > 0]); until then, and
    always for [n <= 0], it returns the value. *)
Theorem Put_whole_seconds (now now' : Z) (kv kv' : KVStore) (key : string) (value : any)
    (n : Z) :
  Put now kv key value (Some (f64.of_int n)) = Some kv' ->
  Z.abs (1000 * n) < 2 ^ 53 -> Z.abs (now' - now) < 2 ^ 53 ->
  entry_of kv' key = Some (NewShardEntry now value (f64.of_int (1000 * n))) /\
  Get now' kv' key
  = Some (if (0 <? n) && (1000 * n <? now' - now)
          then Err (ExpiredEntryError key (now' - now) (f64.of_int (1000 * n)))
          else Ok value).
Proof.
  intros Hput Hn Hd.
  pose proof (entry_of_Put _ _ _ key _ _ _ Hput) as He. rewrite decide_True in He by done.
  cbn [stored_ttl] in He. rewrite mul_1000_exact in He by done. split; [done|].
  rewrite (Get_entry_of _ _ _ _ He).
  rewrite (expired_whole_milliseconds now' _ (1000 * n)) by done.
  cbn [Timestamp Value Ttl NewShardEntry]. rewrite int64_sub_small by done.
  replace (0 <? 1000 * n) with (0 <? n); [done|].
  destruct (Z.ltb_spec 0 n), (Z.ltb_spec 0 (1000 * n)); lia.
Qed.

(** ** The snapshot file *)

(** The reading of [NewKVStoreFromDisk] undoes the writing of [Flush] for
    every body, also one with newlines in it: splitting at the newlines and
    joining again gives the text back, and for a text made of a body, a
    newline and a last line without newline, the last line and the joined
    lines before it are that last line and that body. *)
Theorem reader_recovers_body_and_digest (body digest : string) :
  no_nl digest ->
  strings_Join (strings_Split body) = body /\
  default EmptyString (last (strings_Split (body +:+ String nl digest))) = digest /\
  strings_Join (take (length (strings_Split (body +:+ String nl digest)) - 1)
                     (strings_Split (body +:+ String nl digest))) = body.
Proof.
  intros Hd. split; [apply strings_Join_Split|]. by apply split_last_line.
Qed.

Lemma hex_encode_length (l : list Z) : String.length (hex.encode l) = (2 * length l)%nat.
Proof. induction l as [|v l IH]; [done|]. cbn [hex.encode String.length length]. lia. Qed.

Lemma hex_digit_in_table (n : Z) : hex.digit n ∈ hex.hextable.
Proof.
  unfold hex.digit. destruct (hex.hextable !! Z.to_nat n) as [c|] eqn:H; cbn.
  - by eapply list_elem_of_lookup_2.
  - unfold hex.hextable. cbn. apply list_elem_of_here.
Qed.

Lemma hex_encode_chars (l : list Z) :
  Forall (fun c => c ∈ hex.hextable) (String.list_ascii_of_string (hex.encode l)).
Proof.
  induction l as [|v l IH]; cbn [hex.encode String.list_ascii_of_string]; [done|].
  apply Forall_cons; split; [apply hex_digit_in_table|].
  apply Forall_cons; split; [apply hex_digit_in_table|done].
Qed.

(** What [Flush] writes for a shard that is not empty: the serialized map,
    one newline, and the MD5 of the serialized map as 32 lower-case
    hexadecimal digits, with no newline after them. The directory of the file
    exists, and no other file and no directory is touched. *)
Theorem Flush_snapshot_layout (s : Shard) (f : string * string) (fs fs' : FS) :
  Flush s f fs = Ok fs' -> getLength s <> 0%nat ->
  exists body digest,
    json_Marshal (Data s) = inr body /\
    fs_files fs' !! f = Some (body +:+ String nl digest) /\
    hex.DecodeString digest = inr (md5.Sum body) /\
    String.length digest = 32%nat /\
    Forall (fun c => c ∈ String.list_ascii_of_string "0123456789abcdef")
           (String.list_ascii_of_string digest) /\
    f.1 ∈ fs_dirs fs /\ fs_dirs fs' = fs_dirs fs /\
    forall g, g <> f -> fs_files fs' !! g = fs_files fs !! g.
Proof.
  intros Hfl Hne. destruct (Flush_Ok_inv _ _ _ _ Hfl Hne) as (body & Hbody & Hdir & ->).
  exists body, (hex.EncodeToString (md5.Sum body)). cbn [fs_files fs_dirs].
  split; [done|]. split; [apply lookup_insert_eq|].
  split; [apply hex_DecodeString_EncodeToString|]. split.
  { unfold hex.EncodeToString. by rewrite hex_encode_length, bytes_of_length, md5_Sum_length. }
  split; [apply hex_encode_chars|]. split; [done|]. split; [done|].
  intros g Hg. by apply lookup_insert_ne.
Qed.

(** ** What ToDisk leaves alone *)

(** [ToDisk] never changes the shards or the directory name of the store,
    never creates or removes a directory, and changes no file other than the
    files [shard-0] ... [shard-(N-1)] of the store's directory; it changes no
    recorded length but those of the [N] shards. This holds whether or not it
    returns an error. *)
Theorem ToDisk_frame (kv : KVStore) (fs : FS) :
  Shards (ToDisk kv fs).1.1 = Shards kv /\
  Directory (ToDisk kv fs).1.1 = Directory kv /\
  fs_dirs (ToDisk kv fs).1.2 = fs_dirs fs /\
  (forall f, (forall i, (i < length (Shards kv))%nat -> f <> file_of (Directory kv) i) ->
     fs_files (ToDisk kv fs).1.2 !! f = fs_files fs !! f) /\
  (forall i, (length (Shards kv) <= i)%nat ->
     shardDimensions (ToDisk kv fs).1.1 !!! i = shardDimensions kv !!! i).
Proof.
  destruct (ToDisk_Shards kv fs) as [Hs Hd]. split; [done|]. split; [done|].
  unfold ToDisk. destruct (ToDisk_loop _ _ _ _ _) as [[dims fs'] err] eqn:Hloop.
  cbn [fst snd shardDimensions].
  destruct (ToDisk_loop_frame _ _ _ _ _ _ _ _ Hloop) as (Hdirs & Hfiles & Hdims).
  split; [done|]. split.
  - intros f Hf. apply Hfiles. intros j s Hj Hfj. exfalso.
    apply (Hf j); [by eapply lookup_lt_Some|done].
  - intros i Hi. apply Hdims. lia.
Qed.

(** ** Loading *)

Lemma load_step_cases (fs : FS) (i : nat) (rest : list nat) (c : KVStore) :
  (exists data, accepts fs (Directory c) i data /\
     NewKVStoreFromDisk_loop fs (i :: rest) c =
     NewKVStoreFromDisk_loop fs rest
       {| Shards := Shards c ++ [NewShardWithData data];
          Directory := Directory c;
          shardDimensions := <[i := size data]> (shardDimensions c) |}) \/
  (exists msg, NewKVStoreFromDisk_loop fs (i :: rest) c = Err (UnloadableShardError i msg) /\
     is_Some (fs_files fs !! file_of (Directory c) i) /\
     forall d, ~ accepts fs (Directory c) i d).
Proof.
  unfold accepts, file_of. cbn [NewKVStoreFromDisk_loop]. unfold os_exists, os_ReadFile.
  destruct (fs_files fs !! path_Join (Directory c) (shard_file i)) as [content|] eqn:Hf.
  - rewrite bool_decide_eq_true_2 by eauto. cbn [negb]. cbv zeta.
    destruct (hex.DecodeString (default EmptyString (last (strings_Split content))))
      as [err|h] eqn:Hhex.
    { right. exists err. split; [done|]. split; [eauto|]. by intros d [H _]. }
    destruct (bool_decide (md5.Sum _ = h)) eqn:Hb; cbn [negb].
    + apply bool_decide_eq_true in Hb.
      destruct (json_Unmarshal _) as [err|data] eqn:Hu.
      * right. exists err. split; [done|]. split; [eauto|]. intros d [_ H]. congruence.
      * left. exists data. split; [|done]. split; [congruence|done].
    + apply bool_decide_eq_false in Hb. right. exists hash_mismatch.
      split; [done|]. split; [eauto|]. intros d [H _]. congruence.
  - rewrite bool_decide_eq_false_2 by (by intros [? ?]). cbn [negb].
    left. exists ∅. split; [done|]. by rewrite map_size_empty.
Qed.

Lemma load_loop_inv (fs : FS) (n k : nat) (c : KVStore) :
  match NewKVStoreFromDisk_loop fs (seq k n) c with
  | Ok kv =>
      Directory kv = Directory c /\
      (forall i, (i < k)%nat -> shardDimensions kv !!! i = shardDimensions c !!! i) /\
      exists datas, length datas = n /\
        Shards kv = Shards c ++ (NewShardWithData <$> datas) /\
        forall i d, (k <= i)%nat -> datas !! (i - k)%nat = Some d ->
          accepts fs (Directory c) i d /\ shardDimensions kv !!! i = size d
  | Err e =>
      exists i msg, (k <= i < k + n)%nat /\ e = UnloadableShardError i msg /\
        is_Some (fs_files fs !! file_of (Directory c) i) /\
        (forall d, ~ accepts fs (Directory c) i d) /\
        forall j, (k <= j < i)%nat -> exists d, accepts fs (Directory c) j d
  end.
Proof.
  revert k c. induction n as [|n IH]; intros k c.
  { cbn [seq NewKVStoreFromDisk_loop]. split; [done|]. split; [done|].
    exists []. split; [done|]. split; [by rewrite app_nil_r|]. intros i d _ H. done. }
  cbn [seq]. destruct (load_step_cases fs k (seq (S k) n) c)
    as [(data & Hacc & ->)|(msg & -> & Hfile & Hno)].
  - specialize (IH (S k) {| Shards := Shards c ++ [NewShardWithData data];
                           Directory := Directory c;
                           shardDimensions := <[k := size data]> (shardDimensions c) |}).
    destruct (NewKVStoreFromDisk_loop fs (seq (S k) n) _) as [kv|e]; cbn [Directory Shards shardDimensions] in IH.
    + destruct IH as (Hdir & Hframe & datas & Hlen & Hshards & Hdatas).
      split; [done|]. split.
      { intros i Hi. rewrite Hframe by lia. apply lookup_total_insert_ne. lia. }
      exists (data :: datas). split; [by rewrite <- Hlen|]. split.
      { rewrite Hshards, <- app_assoc. done. }
      intros i d Hi Hd. destruct (decide (i = k)) as [->|Hne].
      * rewrite Nat.sub_diag in Hd. injection Hd as <-. split; [done|].
        rewrite Hframe by lia. apply lookup_total_insert_eq.
      * replace (i - k)%nat with (S (i - S k)) in Hd by lia. cbn [lookup list_lookup] in Hd.
        apply Hdatas; [lia|done].
    + destruct IH as (i & msg & Hi & -> & Hfile & Hno & Hbefore).
      exists i, msg. split; [lia|]. split; [done|]. split; [done|]. split; [done|].
      intros j Hj. destruct (decide (j = k)) as [->|Hne]; [eauto|]. apply Hbefore. lia.
  - exists k, msg. split; [lia|]. split; [done|]. split; [done|]. split; [done|].
    intros j Hj. lia.
Qed.

(** A store that [NewKVStoreFromDisk] returns has [N] shards and the
    directory asked for; every shard holds what the checks of the loader
    accept for its file (the empty map without a file, and with one a body
    that matches the MD5 on the last line and decodes to the shard's map);
    and the recorded length of every shard is its length, so that a [ToDisk]
    right after it writes nothing and returns no error. *)
Theorem loaded_store_is_checked_and_clean (N : nat) (dir : string) (fs : FS) (kv : KVStore) :
  NewKVStoreFromDisk N dir fs = Ok kv ->
  length (Shards kv) = N /\ Directory kv = dir /\
  (forall i s, Shards kv !! i = Some s ->
     accepts fs dir i (Data s) /\ shardDimensions kv !!! i = getLength s) /\
  forall fs', ToDisk kv fs' = (kv, fs', None).
Proof.
  unfold NewKVStoreFromDisk. intros H.
  pose proof (load_loop_inv fs N 0 {| Shards := []; Directory := dir; shardDimensions := ∅ |})
    as Hinv. rewrite H in Hinv. cbn [Directory Shards shardDimensions] in Hinv.
  destruct Hinv as (Hdir & _ & datas & Hlen & Hshards & Hdatas).
  rewrite app_nil_l in Hshards.
  assert (forall i s, Shards kv !! i = Some s ->
            accepts fs dir i (Data s) /\ shardDimensions kv !!! i = getLength s) as Hall.
  { intros i s Hs. rewrite Hshards, list_lookup_fmap in Hs.
    destruct (datas !! i) as [d|] eqn:Hd; [|done]. injection Hs as <-.
    apply Hdatas; [lia|]. by rewrite Nat.sub_0_r. }
  split; [by rewrite Hshards, length_fmap|]. split; [done|]. split; [done|].
  intros fs'. apply ToDisk_clean. intros i s Hs. by apply Hall.
Qed.

Lemma NewKVStoreFromDisk_loop_io_FS (fs : FS) (indices : list nat) (c : KVStore) :
  NewKVStoreFromDisk_loop fs indices c =
  NewKVStoreFromDisk_loop_io (fun name => negb (os_exists fs name)) (os_ReadFile fs) indices c.
Proof.
  revert c. induction indices as [|i rest IH]; intros c; [done|].
  cbn [NewKVStoreFromDisk_loop NewKVStoreFromDisk_loop_io]. cbv zeta.
  destruct (negb (os_exists fs _)); [apply IH|].
  destruct (os_ReadFile fs _) as [err|bData]; [done|].
  destruct (hex.DecodeString _) as [err|h]; [done|].
  destruct (negb (bool_decide _)); [done|].
  destruct (json_Unmarshal _) as [err|data]; [done|apply IH].
Qed.

Lemma load_step_io_cases (IsNotExist : string * string -> bool)
    (ReadFile : string * string -> string + string) (i : nat) (rest : list nat)
    (c : KVStore) :
  (exists data, shard_loads IsNotExist ReadFile (Directory c) i data /\
     NewKVStoreFromDisk_loop_io IsNotExist ReadFile (i :: rest) c =
     NewKVStoreFromDisk_loop_io IsNotExist ReadFile rest
       {| Shards := Shards c ++ [NewShardWithData data];
          Directory := Directory c;
          shardDimensions := <[i := size data]> (shardDimensions c) |}) \/
  (exists msg,
     NewKVStoreFromDisk_loop_io IsNotExist ReadFile (i :: rest) c
     = Err (UnloadableShardError i msg) /\
     shard_fails IsNotExist ReadFile (Directory c) i msg).
Proof.
  unfold shard_loads, shard_fails, file_passes, file_fails, rejected, file_of.
  cbn [NewKVStoreFromDisk_loop_io]. cbv zeta.
  destruct (IsNotExist (path_Join (Directory c) (shard_file i))) eqn:Hstat.
  { left. exists ∅. split; [done|]. by rewrite map_size_empty. }
  destruct (ReadFile (path_Join (Directory c) (shard_file i))) as [err|content] eqn:Hread.
  { right. exists err. split; [done|]. split; [done|]. by left. }
  destruct (hex.DecodeString (default EmptyString (last (strings_Split content))))
    as [err|h] eqn:Hhex.
  { right. exists err. split; [done|]. split; [done|]. right. exists content.
    split; [done|]. left. by rewrite Hhex. }
  destruct (bool_decide (md5.Sum _ = h)) eqn:Hb; cbn [negb].
  - apply bool_decide_eq_true in Hb.
    destruct (json_Unmarshal _) as [err|data] eqn:Hu.
    + right. exists err. split; [done|]. split; [done|]. right. exists content.
      split; [done|]. right. split; [congruence|done].
    + left. exists data. split; [|done]. exists content. split; [done|].
      split; [congruence|done].
  - apply bool_decide_eq_false in Hb. right. exists hash_mismatch.
    split; [done|]. split; [done|]. right. exists content. split; [done|]. left.
    rewrite Hhex. done.
Qed.

Lemma load_loop_io_Err (IsNotExist : string * string -> bool)
    (ReadFile : string * string -> string + string) (n k : nat) (c : KVStore) (e : error) :
  NewKVStoreFromDisk_loop_io IsNotExist ReadFile (seq k n) c = Err e ->
  exists i msg, (k <= i < k + n)%nat /\ e = UnloadableShardError i msg /\
    shard_fails IsNotExist ReadFile (Directory c) i msg /\
    forall j, (k <= j < i)%nat ->
      exists data, shard_loads IsNotExist ReadFile (Directory c) j data.
Proof.
  revert k c. induction n as [|n IH]; intros k c H; [done|].
  cbn [seq] in H.
  destruct (load_step_io_cases IsNotExist ReadFile k (seq (S k) n) c)
    as [(data & Hloads & Hstep)|(msg & Hstep & Hfails)]; rewrite Hstep in H.
  - apply IH in H as (i & msg & Hi & -> & Hfails & Hbefore). cbn [Directory] in *.
    exists i, msg. split; [lia|]. split; [done|]. split; [done|].
    intros j Hj. destruct (decide (j = k)) as [->|Hne]; [eauto|]. apply Hbefore. lia.
  - injection H as <-. exists k, msg. split; [lia|]. split; [done|]. split; [done|].
    intros j Hj. lia.
Qed.

(** Whatever [os.Stat] and [os.ReadFile] answer: when [NewKVStoreFromDisk]
    fails, the error is an [UnloadableShardError] that names a shard below
    [N] and carries the reason. The file of that shard was not reported
    missing, and either it could not be read (the reason is the error of
    [os.ReadFile]), or its last line is no hexadecimal string, or the lines
    before do not have the MD5 that the last line gives, or they do not
    decode. It is the first such shard: every shard before it was reported
    missing or has a file that was read and passed. *)
Theorem load_error_names_first_bad_shard (IsNotExist : string * string -> bool)
    (ReadFile : string * string -> string + string) (N : nat) (dir : string) (e : error) :
  NewKVStoreFromDisk_io IsNotExist ReadFile N dir = Err e ->
  exists i msg, (i < N)%nat /\ e = UnloadableShardError i msg /\
    shard_fails IsNotExist ReadFile dir i msg /\
    forall j, (j < i)%nat -> exists data, shard_loads IsNotExist ReadFile dir j data.
Proof.
  unfold NewKVStoreFromDisk_io. intros H.
  apply load_loop_io_Err in H as (i & msg & Hi & -> & Hfails & Hbefore).
  cbn [Directory] in *. exists i, msg. split; [lia|]. split; [done|]. split; [done|].
  intros j Hj. apply Hbefore. lia.
Qed.

Lemma load_loop_io_missing (IsNotExist : string * string -> bool)
    (ReadFile : string * string -> string + string) (indices : list nat) (c : KVStore) :
  (forall i, i ∈ indices -> IsNotExist (file_of (Directory c) i) = true) ->
  NewKVStoreFromDisk_loop_io IsNotExist ReadFile indices c =
  Ok (foldl (fun c i =>
               {| Shards := Shards c ++ [NewShard];
                  Directory := Directory c;
                  shardDimensions := <[i := 0%nat]> (shardDimensions c) |}) c indices).
Proof.
  revert c. induction indices as [|i rest IH]; intros c H; [done|].
  cbn [NewKVStoreFromDisk_loop_io foldl]. cbv zeta.
  assert (IsNotExist (path_Join (Directory c) (shard_file i)) = true) as ->.
  { apply H. apply list_elem_of_here. }
  apply IH. intros j Hj. cbn [Directory]. apply H. by apply list_elem_of_further.
Qed.

(** Whatever [os.ReadFile] would answer: when [os.Stat] reports each of the
    [N] shard files as not existing, [NewKVStoreFromDisk] returns, without
    an error, exactly the store that [NewKVStore] makes. *)
Theorem load_without_snapshots_is_NewKVStore (IsNotExist : string * string -> bool)
    (ReadFile : string * string -> string + string) (N : nat) (dir : string) :
  (forall i, (i < N)%nat -> IsNotExist (file_of dir i) = true) ->
  NewKVStoreFromDisk_io IsNotExist ReadFile N dir = Ok (NewKVStore N dir).
Proof.
  intros Hmissing. unfold NewKVStoreFromDisk_io, NewKVStore. apply load_loop_io_missing.
  intros i Hi. cbn [Directory]. apply Hmissing. apply elem_of_seq in Hi. lia.
Qed.

(** ** A pass that fails *)

Lemma Flush_Err_nonempty (s : Shard) (f : string * string) (fs : FS) (e : error) :
  Flush s f fs = Err e -> getLength s <> 0%nat.
Proof. intros H E. by rewrite Flush_empty in H. Qed.

Lemma ToDisk_loop_Some (dir : string) (shards : list Shard) (i : nat)
    (dims dims' : gmap nat nat) (fs fs' : FS) (e : error) :
  ToDisk_loop dir i shards dims fs = (dims', fs', Some e) ->
  exists k s, (i <= k)%nat /\ shards !! (k - i)%nat = Some s /\
    dims !!! k <> getLength s /\ Flush s (file_of dir k) fs' = Err e /\
    dims' !!! k = getLength s /\
    fs_files fs' !! file_of dir k = fs_files fs !! file_of dir k /\
    (forall j s', (i <= j < k)%nat -> shards !! (j - i)%nat = Some s' ->
       dims' !!! j = getLength s' /\
       (dims !!! j <> getLength s' -> getLength s' <> 0%nat ->
        exists body, json_Marshal (Data s') = inr body /\
          fs_files fs' !! file_of dir j = Some (snapshot body))) /\
    (forall j, (k < j)%nat ->
       dims' !!! j = dims !!! j /\
       fs_files fs' !! file_of dir j = fs_files fs !! file_of dir j).
Proof.
  revert i dims fs. induction shards as [|s0 rest IH]; intros i dims fs H; [done|].
  cbn [ToDisk_loop] in H. case_decide as Hd.
  - destruct (ToDisk_loop_frame _ _ _ _ _ _ _ _ H) as (_ & _ & Hout).
    destruct (IH _ _ _ H) as (k & s & Hk & Hs & Hdirty & Hfl & Hrec & Hfile & Hbefore & Hafter).
    exists k, s. split; [lia|]. split.
    { replace (k - i)%nat with (S (k - S i)) by lia. done. }
    do 4 (split; [done|]). split; [|done].
    intros j s' Hj Hs'. destruct (decide (j = i)) as [->|Hne].
    + rewrite Nat.sub_diag in Hs'. injection Hs' as <-.
      split; [|done]. rewrite Hout by lia. done.
    + replace (j - i)%nat with (S (j - S i)) in Hs' by lia. apply Hbefore; [lia|done].
  - destruct (Flush s0 (path_Join dir (shard_file i)) fs) as [fs1|e0] eqn:Hfl.
    + destruct (ToDisk_loop_frame _ _ _ _ _ _ _ _ H) as (_ & Hfiles & Hout).
      destruct (IH _ _ _ H) as (k & s & Hk & Hs & Hdirty & Hfl' & Hrec & Hfile & Hbefore & Hafter).
      assert (forall j, j <> i ->
                fs_files fs1 !! file_of dir j = fs_files fs !! file_of dir j) as Hother.
      { intros j Hj. apply (Flush_other_file _ _ _ _ _ Hfl). left.
        intros E%file_of_inj. done. }
      exists k, s. split; [lia|]. split.
      { replace (k - i)%nat with (S (k - S i)) by lia. done. }
      split. { rewrite lookup_total_insert_ne in Hdirty by lia. done. }
      split; [done|]. split; [done|]. split.
      { rewrite Hfile. apply Hother. lia. }
      split.
      * intros j s' Hj Hs'. destruct (decide (j = i)) as [->|Hne].
        -- rewrite Nat.sub_diag in Hs'. injection Hs' as <-. split.
           { rewrite Hout by lia. apply lookup_total_insert_eq. }
           intros _ Hne. destruct (Flush_Ok_inv _ _ _ _ Hfl Hne) as (body & Hbody & _ & Hfs1).
           exists body. split; [done|]. rewrite Hfiles.
           { rewrite Hfs1. cbn [fs_files]. apply lookup_insert_eq. }
           intros j' s'' Hj' E%file_of_inj. lia.
        -- replace (j - i)%nat with (S (j - S i)) in Hs' by lia.
           destruct (Hbefore j s') as [H1 H2]; [lia|done|]. split; [done|].
           intros Hdj Hne0. apply H2; [|done]. rewrite lookup_total_insert_ne by lia. done.
      * intros j Hj. destruct (Hafter j Hj) as [H1 H2]. split.
        -- rewrite H1. apply lookup_total_insert_ne. lia.
        -- rewrite H2. apply Hother. lia.
    + injection H as <- <- <-. exists i, s0. split; [lia|]. split.
      { by rewrite Nat.sub_diag. }
      split; [done|]. split; [done|]. split; [apply lookup_total_insert_eq|].
      split; [done|]. split; [intros j s' Hj; lia|].
      intros j Hj. split; [|done]. apply lookup_total_insert_ne. lia.
Qed.

(** A [ToDisk] that returns an error stopped at one shard [k]: the shard
    is not empty, its length differed from the recorded one, and the error
    is the one its [Flush] returned. The length of shard [k] is recorded all
    the same. Every shard before [k] has its length recorded and, if it was
    due, its snapshot written; and no shard after [k] was visited: recorded
    length and file are as they were. *)
Theorem ToDisk_stops_at_first_failure (kv kv1 : KVStore) (fs fs1 : FS) (e : error) :
  ToDisk kv fs = (kv1, fs1, Some e) ->
  exists k s, Shards kv !! k = Some s /\ getLength s <> 0%nat /\
    shardDimensions kv !!! k <> getLength s /\
    (exists fs0, Flush s (file_of (Directory kv) k) fs0 = Err e) /\
    shardDimensions kv1 !!! k = getLength s /\
    (forall j s', (j < k)%nat -> Shards kv !! j = Some s' ->
       shardDimensions kv1 !!! j = getLength s' /\
       (shardDimensions kv !!! j <> getLength s' -> getLength s' <> 0%nat ->
        exists body, json_Marshal (Data s') = inr body /\
          fs_files fs1 !! file_of (Directory kv) j = Some (snapshot body))) /\
    (forall j, (k < j)%nat ->
       shardDimensions kv1 !!! j = shardDimensions kv !!! j /\
       fs_files fs1 !! file_of (Directory kv) j = fs_files fs !! file_of (Directory kv) j).
Proof.
  unfold ToDisk. intros H.
  destruct (ToDisk_loop _ _ _ _ _) as [[dims fs'] err] eqn:Hloop.
  injection H as <- <- ->. cbn [shardDimensions].
  destruct (ToDisk_loop_Some _ _ _ _ _ _ _ _ Hloop)
    as (k & s & _ & Hs & Hdirty & Hfl & Hrec & _ & Hbefore & Hafter).
  rewrite Nat.sub_0_r in Hs. exists k, s. split; [done|].
  split; [by eapply Flush_Err_nonempty|]. split; [done|]. split; [eauto|].
  split; [done|]. split; [|done].
  intros j s' Hj Hs'. apply Hbefore; [lia|]. by rewrite Nat.sub_0_r.
Qed.

(** ** Round trip over old snapshots *)



(** ** Cleanup, panics and files, for whole runs *)

(** [Cleanup] keeps exactly the entries that are not expired at the clock
    reading of the [Evict] of their shard, unchanged; it leaves the number of
    shards, the directory and the recorded lengths alone; and a second
    [Cleanup] at the same readings changes nothing. *)
Theorem Cleanup_keeps_exactly_unexpired (clock : nat -> Z) (kv : KVStore) :
  (forall key,
     entry_of (Cleanup clock kv) key =
     i ← findShard kv key; e ← entry_of kv key;
     if expired (clock i) e then None else Some e) /\
  length (Shards (Cleanup clock kv)) = length (Shards kv) /\
  Directory (Cleanup clock kv) = Directory kv /\
  shardDimensions (Cleanup clock kv) = shardDimensions kv /\
  Cleanup clock (Cleanup clock kv) = Cleanup clock kv.
Proof.
  split; [|split; [apply Cleanup_length|split; [done|split; [done|]]]].
  - intros key. unfold entry_of.
    rewrite (findShard_length kv (Cleanup clock kv)) by apply Cleanup_length.
    destruct (findShard kv key) as [i|]; cbn [mbind option_bind]; [|done].
    rewrite Cleanup_Shards_lookup.
    destruct (Shards kv !! i) as [s|]; cbn [fmap option_fmap option_map mbind option_bind];
      [|done].
    apply Evict_lookup.
  - unfold Cleanup. cbn [Shards Directory shardDimensions]. f_equal.
    apply list_eq. intros i. rewrite !list_lookup_imap.
    destruct (Shards kv !! i) as [s|]; cbn [fmap option_fmap option_map]; [|done].
    f_equal. apply Evict_idem.
Qed.

(** On a store made by [NewKVStore] with at least one shard no operation
    ever panics, in any order and whatever the disk holds: [Put], [Get],
    [Delete], [Cleanup] and [ToDisk], failed passes among them, run through,
    and the store keeps its [N] shards and its directory. *)
Theorem run_never_panics (N : nat) (dir : string) (fs : FS) (ops : list op) :
  (0 < N)%nat ->
  exists w, run {| store := NewKVStore N dir; disk := fs |} ops = Some w /\
    length (Shards (store w)) = N /\ Directory (store w) = dir /\
    fs_dirs (disk w) = fs_dirs fs.
Proof.
  intros HN.
  assert (forall ops w, (0 < length (Shards (store w)))%nat ->
            exists w', run w ops = Some w' /\
              length (Shards (store w')) = length (Shards (store w)) /\
              Directory (store w') = Directory (store w) /\
              fs_dirs (disk w') = fs_dirs (disk w)) as Hgen.
  { clear. intros ops. induction ops as [|o ops IH]; intros w Hw; [by exists w|].
    destruct (step_total w o Hw) as (w1 & Hstep & Hlen). cbn [run]. rewrite Hstep.
    cbn [mbind option_bind]. destruct (IH w1) as (w' & Hrun & Hlen' & Hdir & Hdirs); [lia|].
    exists w'. split; [done|]. split; [congruence|].
    rewrite Hdir, Hdirs. clear -Hstep.
    destruct o as [now key value ttl|now key|key|clock|]; cbn in Hstep.
    - destruct (Put now (store w) key value ttl) as [kv'|] eqn:E; [|done].
      injection Hstep as <-. cbn [store disk]. by destruct (Put_frame _ _ _ _ _ _ E).
    - destruct (Get now (store w) key); [|done]. by injection Hstep as <-.
    - destruct (Delete (store w) key) as [kv'|] eqn:E; [|done].
      injection Hstep as <-. cbn [store disk]. by destruct (Delete_frame _ _ _ E).
    - by injection Hstep as <-.
    - destruct (ToDisk (store w) (disk w)) as [[kv' fs'] err] eqn:E.
      injection Hstep as <-. cbn [store disk].
      pose proof (ToDisk_Shards (store w) (disk w)) as [_ Hd]. rewrite E in Hd.
      split; [done|]. unfold ToDisk in E.
      destruct (ToDisk_loop _ _ _ _ _) as [[dims fs1] err1] eqn:Hloop.
      injection E as _ <- _. by destruct (ToDisk_loop_frame _ _ _ _ _ _ _ _ Hloop). }
  destruct (Hgen ops {| store := NewKVStore N dir; disk := fs |})
    as (w & Hrun & Hlen & Hdir & Hdirs).
  { cbn [store]. rewrite NewKVStore_Shards, length_replicate. done. }
  exists w. split; [done|]. cbn [store disk] in *.
  by rewrite Hlen, Hdir, Hdirs, NewKVStore_Shards, length_replicate, NewKVStore_Directory.
Qed.

(** [ToDisk] never removes a file, with or without an error: every file
    that was there is still there. The file of a shard that is empty at the
    time of the pass is left exactly as it was, so an old snapshot of that
    shard stays on the disk. *)
Theorem ToDisk_never_removes_files (kv : KVStore) (fs : FS) :
  (forall f, is_Some (fs_files fs !! f) -> is_Some (fs_files (ToDisk kv fs).1.2 !! f)) /\
  (forall i s, Shards kv !! i = Some s -> getLength s = 0%nat ->
     fs_files (ToDisk kv fs).1.2 !! file_of (Directory kv) i
     = fs_files fs !! file_of (Directory kv) i).
Proof.
  unfold ToDisk. destruct (ToDisk_loop _ _ _ _ _) as [[dims fs'] err] eqn:Hloop.
  cbn [fst snd]. split.
  - revert Hloop. generalize (shardDimensions kv) 0%nat. revert fs.
    induction (Shards kv) as [|s rest IH]; intros fs dims0 i H f Hf.
    { by injection H as _ <- _. }
    cbn [ToDisk_loop] in H. case_decide; [by eapply IH|].
    destruct (Flush s (path_Join (Directory kv) (shard_file i)) fs) as [fs1|e] eqn:Hfl.
    + eapply IH; [done|]. destruct (decide (getLength s = 0%nat)) as [E|E].
      * rewrite Flush_empty in Hfl by done. by injection Hfl as <-.
      * destruct (Flush_Ok_inv _ _ _ _ Hfl E) as (body & _ & _ & ->). cbn [fs_files].
        destruct (decide (f = path_Join (Directory kv) (shard_file i))) as [->|Hne].
        -- rewrite lookup_insert_eq. eauto.
        -- by rewrite lookup_insert_ne.
    + by injection H as _ <- _.
  - intros i s Hs Hlen.
    destruct (ToDisk_loop_frame _ _ _ _ _ _ _ _ Hloop) as (_ & Hfiles & _).
    apply Hfiles. intros j s' Hj Hf. apply file_of_inj in Hf. cbn [Nat.add] in Hf.
    subst j. right. congruence.
Qed.

(** ** The workers *)

Lemma int64_wrap_small (z : Z) : - 2 ^ 63 <= z < 2 ^ 63 -> int64_wrap z = z.
Proof.
  intros H. unfold int64_wrap.
  assert (2 ^ 64 = 2 * 2 ^ 63) by (by vm_compute).
  rewrite Z.mod_small; lia.
Qed.

(** A worker started with an interval that is not positive panics at once,
    in [time.NewTicker], and so does one whose interval in nanoseconds
    overflows [int64] to a value that is not positive, as 9223372036855 ms
    does; every interval from 1 to 9223372036854 ms starts the worker. *)
Theorem workers_need_a_positive_interval (fmt_f : float64 -> string) (w : world)
    (interval : Z) (events : list (event unit)) (events' : list (event (nat -> Z))) :
  (-9223372036854 <= interval <= 0 ->
   ToDiskWorker fmt_f w interval events = None /\ CleanupWorker w interval events' = None) /\
  (0 < interval <= 9223372036854 ->
   is_Some (ToDiskWorker fmt_f w interval events) /\
   is_Some (CleanupWorker w interval events')) /\
  ToDiskWorker fmt_f w 9223372036855 events = None /\
  CleanupWorker w 9223372036855 events' = None.
Proof.
  assert (2 ^ 63 = 9223372036854775808) as E63 by (by vm_compute).
  unfold ToDiskWorker, CleanupWorker, NewTicker_panics, time_Millisecond.
  split; [|split; [|by vm_compute]].
  - intros H. rewrite int64_wrap_small by lia.
    rewrite bool_decide_eq_true_2 by lia. done.
  - intros H. rewrite int64_wrap_small by lia.
    rewrite bool_decide_eq_false_2 by lia. eauto.
Qed.

Lemma ToDiskWorker_loop_run (fmt_f : float64 -> string) (events : list (event unit))
    (w : world) (log : list string) :
  exists w' log',
    ToDiskWorker_loop fmt_f events w log = (w', log', stops events) /\
    run w ((fun _ => OpToDisk) <$> ticks events) = Some w' /\
    Shards (store w') = Shards (store w) /\
    Directory (store w') = Directory (store w).
Proof.
  revert w log. induction events as [|[| |[]] rest IH]; intros w log;
    cbn [ToDiskWorker_loop ticks stops fmap list_fmap run]; [by eauto 10..|].
  destruct (ToDisk (store w) (disk w)) as [[kv fs] err] eqn:Htd.
  destruct (IH {| store := kv; disk := fs |}
              match err with
              | Some e => log ++ [flush_error_line fmt_f e]
              | None => log
              end) as (w' & log' & Hloop & Hrun & Hs & Hd).
  exists w', log'. split; [done|]. cbn [step]. rewrite Htd.
  cbn [mbind option_bind]. split; [done|].
  pose proof (ToDisk_Shards (store w) (disk w)) as [Hs' Hd']. rewrite Htd in Hs', Hd'.
  cbn [store fst] in *. split; congruence.
Qed.

Lemma CleanupWorker_loop_run (events : list (event (nat -> Z))) (w : world)
    (log : list string) :
  exists w' log',
    CleanupWorker_loop events w log = (w', log', stops events) /\
    run w (OpCleanup <$> ticks events) = Some w' /\
    disk w' = disk w /\ shardDimensions (store w') = shardDimensions (store w) /\
    Directory (store w') = Directory (store w).
Proof.
  revert w log. induction events as [|[| |clock] rest IH]; intros w log;
    cbn [CleanupWorker_loop ticks stops fmap list_fmap run]; [by eauto 10..|].
  destruct (IH {| store := Cleanup clock (store w); disk := disk w |} log)
    as (w' & log' & Hloop & Hrun & Hdisk & Hdims & Hdir).
  exists w', log'. split; [done|]. cbn [step mbind option_bind]. done.
Qed.

(** A worker that starts does what its ticks ask for and nothing else: the
    flush worker leaves the store and the disk that one [ToDisk] for each
    tick before the first stop event leaves, whether the passes fail or not,
    with the shards as they were; the cleanup worker leaves the store that
    one [Cleanup] for each such tick leaves, with the disk and the recorded
    lengths as they were. Each returns exactly when a signal on [done] or the
    cancellation of [ctx] is among its events, and does nothing on its way
    out: no last pass is made. *)
Theorem workers_run_their_ticks (fmt_f : float64 -> string) (w : world) (interval : Z)
    (events : list (event unit)) (events' : list (event (nat -> Z))) :
  NewTicker_panics interval = false ->
  (exists w' log,
     ToDiskWorker fmt_f w interval events = Some (w', log, stops events) /\
     run w ((fun _ => OpToDisk) <$> ticks events) = Some w' /\
     Shards (store w') = Shards (store w) /\ Directory (store w') = Directory (store w)) /\
  (exists w' log,
     CleanupWorker w interval events' = Some (w', log, stops events') /\
     run w (OpCleanup <$> ticks events') = Some w' /\
     disk w' = disk w /\ shardDimensions (store w') = shardDimensions (store w) /\
     Directory (store w') = Directory (store w)).
Proof.
  intros Hint. unfold ToDiskWorker, CleanupWorker. rewrite Hint. split.
  - destruct (ToDiskWorker_loop_run fmt_f events w []) as (w' & log & -> & H).
    by exists w', log.
  - destruct (CleanupWorker_loop_run events' w []) as (w' & log & -> & H).
    by exists w', log.
Qed.

End Snapshots.

(** * Properties of the HTTP handlers *)

Section HandlerProperties.

Variable json_Decode : string -> string + server.SetRequest.
Variable json_Marshal : any -> string + string.
Variable fmt_f : float64 -> string.

Lemma last_ascii_app (a b : string) :
  last_ascii (a +:+ b) = match last_ascii b with Some d => Some d | None => last_ascii a end.
Proof.
  induction a as [|c a IH].
  { change (EmptyString +:+ b) with b. by destruct (last_ascii b). }
  change (String c a +:+ b) with (String c (a +:+ b)). cbn [last_ascii]. rewrite IH.
  by destruct (last_ascii b).
Qed.

Lemma Error_texts_differ (key key' : string) (elapsed : Z) (ttl : float64) :
  Error fmt_f (KeyNotFoundError key) <> Error fmt_f (ExpiredEntryError key' elapsed ttl).
Proof.
  intros H. apply (f_equal last_ascii) in H. cbn [Error] in H.
  rewrite !last_ascii_app in H. cbn [last_ascii] in H. discriminate H.
Qed.

(** [GET] of a key that is not blank, on a store with a shard: the answer is
    404 with the text of [KeyNotFoundError] when the store holds no entry
    for the key, 404 with the text of [ExpiredEntryError] when the entry is
    expired, and otherwise the header, the status 200 and the serialized
    value. The two texts of a 404 are never the same, whatever the keys. *)
Theorem GET_answers (now : Z) (kv : KVStore) (key : string) :
  server.TrimSpace_is_empty key = false -> (0 < length (Shards kv))%nat ->
  server.handleGet json_Marshal fmt_f now kv key =
  Some match entry_of kv key with
       | None =>
           [server.http_Error ("Key " +:+ key +:+ " not found") server.StatusNotFound]
       | Some e =>
           if expired now e
           then [server.http_Error
                   (Error fmt_f (ExpiredEntryError key (int64_sub now (Timestamp e)) (Ttl e)))
                   server.StatusNotFound]
           else server.Header_Set "Content-Type" "application/json" ::
                match json_Marshal (Value e) with
                | inl err =>
                    [server.http_Error err server.StatusInternalServerError;
                     server.WriteHeader server.StatusOK; server.Write EmptyString]
                | inr j => [server.WriteHeader server.StatusOK; server.Write j]
                end
       end /\
  forall key1 key2 elapsed ttl,
    Error fmt_f (KeyNotFoundError key1) <> Error fmt_f (ExpiredEntryError key2 elapsed ttl).
Proof.
  intros Hkey HN. split; [|intros; apply Error_texts_differ].
  unfold server.handleGet. rewrite Hkey.
  destruct (entry_of kv key) as [e|] eqn:He.
  - rewrite (Get_entry_of now _ _ _ He). cbn [mbind option_bind].
    by destruct (expired now e).
  - by rewrite (Get_entry_of_None now _ _ HN He).
Qed.

(** What [POST] stored is what [GET] serves: after a [POST] whose body
    decodes to a request with a key that is not blank, the answer is 201 and
    a [GET] of the key answers with the value of the request, serialized,
    unless the entry is expired by then, which it never is for a request
    without [ttl] and never at a clock reading that is not later than the
    one of the [POST]. *)
Theorem POST_then_GET (now now' : Z) (kv kv' : KVStore) (body : string)
    (req : server.SetRequest) (calls : list server.call) :
  json_Decode body = inr req ->
  server.handlePost json_Decode now kv body = Some (kv', calls) ->
  server.TrimSpace_is_empty (server.Key req) = false ->
  let e := NewShardEntry now (server.Value req) (stored_ttl (server.Ttl req)) in
  calls = [server.WriteHeader server.StatusCreated] /\
  entry_of kv' (server.Key req) = Some e /\
  server.handleGet json_Marshal fmt_f now' kv' (server.Key req) =
  Some (if expired now' e
        then [server.http_Error
                (Error fmt_f (ExpiredEntryError (server.Key req) (int64_sub now' now)
                                (stored_ttl (server.Ttl req))))
                server.StatusNotFound]
        else server.Header_Set "Content-Type" "application/json" ::
             match json_Marshal (server.Value req) with
             | inl err =>
                 [server.http_Error err server.StatusInternalServerError;
                  server.WriteHeader server.StatusOK; server.Write EmptyString]
             | inr j => [server.WriteHeader server.StatusOK; server.Write j]
             end) /\
  (server.Ttl req = None \/ int64_sub now' now <= 0 -> expired now' e = false).
Proof.
  intros Hdec Hpost Hkey. cbv zeta. unfold server.handlePost in Hpost.
  rewrite Hdec in Hpost.
  destruct (Put now kv (server.Key req) (server.Value req) (server.Ttl req))
    as [kv1|] eqn:Hput; [|done].
  cbn [mbind option_bind] in Hpost. injection Hpost as <- <-.
  pose proof (entry_of_Put _ _ _ (server.Key req) _ _ _ Hput) as He.
  rewrite decide_True in He by done.
  split; [done|]. split; [done|]. split.
  - unfold server.handleGet. rewrite Hkey, (Get_entry_of now' _ _ _ He).
    cbn [mbind option_bind Ttl Timestamp Value NewShardEntry].
    by destruct (expired now' _).
  - intros [Hnone|Hd].
    + apply expired_nonpositive. rewrite Hnone. by vm_compute.
    + unfold expired. cbn [Ttl Timestamp NewShardEntry].
      by apply not_expired_nonpositive_elapsed.
Qed.

(** A key that is blank (white space from end to end) can be stored but not
    read: [POST] stores it and answers 201; every [GET] of it answers 400,
    whatever the store holds; [DELETE] removes it with 204 unless it is the
    empty key, for which [DELETE] answers 400 and leaves the store as it
    is. *)
Theorem blank_key_is_stored_but_never_served (now : Z) (kv kv' : KVStore) (body : string)
    (req : server.SetRequest) (calls : list server.call) :
  json_Decode body = inr req ->
  server.handlePost json_Decode now kv body = Some (kv', calls) ->
  server.TrimSpace_is_empty (server.Key req) = true ->
  calls = [server.WriteHeader server.StatusCreated] /\
  entry_of kv' (server.Key req)
  = Some (NewShardEntry now (server.Value req) (stored_ttl (server.Ttl req))) /\
  (forall now' kv2,
     server.handleGet json_Marshal fmt_f now' kv2 (server.Key req)
     = Some [server.http_Error server.empty_key server.StatusBadRequest]) /\
  (server.Key req <> EmptyString ->
   exists kv2,
     server.handleDelete kv' (server.Key req)
     = Some (kv2, [server.WriteHeader server.StatusNoContent]) /\
     entry_of kv2 (server.Key req) = None) /\
  (server.Key req = EmptyString ->
   server.handleDelete kv' (server.Key req)
   = Some (kv', [server.http_Error server.empty_key server.StatusBadRequest])).
Proof.
  intros Hdec Hpost Hkey. unfold server.handlePost in Hpost. rewrite Hdec in Hpost.
  destruct (Put now kv (server.Key req) (server.Value req) (server.Ttl req))
    as [kv1|] eqn:Hput; [|done].
  cbn [mbind option_bind] in Hpost. injection Hpost as <- <-.
  pose proof (entry_of_Put _ _ _ (server.Key req) _ _ _ Hput) as He.
  rewrite decide_True in He by done.
  split; [done|]. split; [done|]. split; [|split].
  - intros now' kv2. unfold server.handleGet. by rewrite Hkey.
  - intros Hne. unfold server.handleDelete. rewrite decide_False by done.
    destruct (Delete_Some kv1 (server.Key req)) as [kv2 Hdel].
    { apply (entry_of_is_Some_length _ (server.Key req)). eauto. }
    exists kv2. rewrite Hdel. split; [done|].
    rewrite (entry_of_Delete _ _ _ _ Hdel). by rewrite decide_True.
  - intros Hempty. unfold server.handleDelete. by rewrite decide_True.
Qed.

(** [DELETE] of a key that is not empty answers 204 whether the store holds
    the key or not; afterwards the key has no entry and every other key has
    the entry it had; and a second [DELETE] of the key answers 204 again and
    changes nothing. *)
Theorem DELETE_answers_204 (kv : KVStore) (key : string) :
  key <> EmptyString -> (0 < length (Shards kv))%nat ->
  exists kv',
    server.handleDelete kv key = Some (kv', [server.WriteHeader server.StatusNoContent]) /\
    entry_of kv' key = None /\
    (forall key', key' <> key -> entry_of kv' key' = entry_of kv key') /\
    server.handleDelete kv' key = Some (kv', [server.WriteHeader server.StatusNoContent]).
Proof.
  intros Hkey HN.
  assert (forall kv0, server.handleDelete kv0 key =
            kv1 ← Delete kv0 key;
            Some (kv1, [server.WriteHeader server.StatusNoContent])) as Hd.
  { intros kv0. unfold server.handleDelete. by rewrite decide_False. }
  destruct (Delete_Some kv key HN) as [kv' Hdel]. exists kv'. rewrite !Hd, Hdel.
  assert (entry_of kv' key = None) as Hnone.
  { rewrite (entry_of_Delete _ _ _ _ Hdel). by rewrite decide_True. }
  split; [done|]. split; [done|]. split.
  - intros key' Hne. rewrite (entry_of_Delete _ _ _ _ Hdel). by rewrite decide_False.
  - destruct (Delete_Some kv' key) as [kv2 Hdel2].
    { by rewrite (Delete_length _ _ _ Hdel). }
    rewrite Hdel2. cbn [mbind option_bind]. do 2 f_equal.
    apply Delete_inv in Hdel2 as (i & s & Hi & Hs & ->).
    unfold entry_of in Hnone. rewrite Hi in Hnone. cbn [mbind option_bind] in Hnone.
    rewrite Hs in Hnone. cbn [mbind option_bind] in Hnone.
    rewrite delete_id by done. rewrite Shard_eta. by apply set_shard_id.
Qed.

End HandlerProperties.

(** * The scenarios of the repository's tests, on the reference codec *)

(** [var ttl float64 = 0.001]: the [float64] nearest to one millisecond in
    seconds. *)
Definition ttl_1ms : float64 := S754_finite false 4611686018427388 (-62).

Definition test_dir : string := ".quache-test/".

(** The test directory, created and empty. *)
Definition test_fs : FS := {| fs_dirs := {[test_dir]}; fs_files := ∅ |}.

(** [NewKVStore(3, TestDirectory)] *)
Definition test_world : world := {| store := NewKVStore 3 test_dir; disk := test_fs |}.

(** The four [Put]s of [TestToAndFromDisk], at the clock reading 1000. *)
Definition test_puts : list op :=
  [ OpPut 1000 "notthekindofthingyouwouldfind" (Int 1) None;
    OpPut 1000 "thisisaverylongkey" (Int 2) None;
    OpPut 1000 "this is an interesting key" (Int 3) None;
    OpPut 1000 "hey" (Int 4) None ].

Definition after_puts : world :=
  default test_world (run refjson.Marshal test_world test_puts).

Definition after_ToDisk : KVStore * FS * option error :=
  ToDisk refjson.Marshal (store after_puts) (disk after_puts).

(** The store of [TestGet]: ["hello"] without and ["bye"] with a time to
    live of one millisecond. *)
Definition after_hello_bye : world :=
  default test_world
    (run refjson.Marshal test_world
       [OpPut 1000 "hello" (Int 1) None; OpPut 1000 "bye" (Int 2) (Some ttl_1ms)]).

(** ["hello"] alone, and operations that do not write it. *)
Definition after_hello : world :=
  default test_world (step refjson.Marshal test_world (OpPut 1000 "hello" (Int 1) None)).

Definition other_ops : list op :=
  [ OpPut 1000 "bye" (Int 2) (Some ttl_1ms); OpGet 1003 "bye";
    OpCleanup (fun _ => 1003); OpToDisk; OpDelete "bye"; OpToDisk ].

(** A [Put] with a time to live of minus five seconds. *)
Definition after_negative_ttl : world :=
  default test_world
    (step refjson.Marshal test_world (OpPut 1000 "hello" (Int 1) (Some (f64.of_int (-5))))).


(** A disk without the test directory. *)
Definition no_dir_fs : FS := {| fs_dirs := ∅; fs_files := ∅ |}.

(** ["hey"] alone, flushed, then overwritten in place. *)
Definition after_hey : KVStore :=
  default (store test_world) (Put 1000 (store test_world) "hey" (Int 4) None).

Definition hey_shard : Shard := default NewShard (Shards after_hey !! 2%nat).


Definition hey_ToDisk : KVStore * FS * option error :=
  ToDisk refjson.Marshal after_hey test_fs.

Definition hey_updated : KVStore :=
  default hey_ToDisk.1.1 (Put 2000 hey_ToDisk.1.1 "hey" (Int 5) None).




Lemma Put_Get_roundtrip_witness :
  entry_of (store after_hello) "hello"
  = Some (NewShardEntry 1000 (Int 1) (f64.of_int (-1))) /\
  exists w2, run refjson.Marshal after_hello other_ops = Some w2 /\
    Get 99999 (store w2) "hello" = Some (Ok (Int 1)).
Proof.
  apply (Put_Get_roundtrip refjson.Marshal test_world after_hello 1000 99999
           "hello" (Int 1) other_ops).
  - vm_compute. reflexivity.
  - repeat constructor.
Defined.

Lemma Get_expiry_witness :
  (Get 1003 (store after_hello_bye) "bye"
   = Some (Err (ExpiredEntryError "bye" (int64_sub 1003 1000) (f64.of_int 1)))
   <-> expired 1003 (NewShardEntry 1000 (Int 2) (f64.of_int 1)) = true) /\
  (expired 1003 (NewShardEntry 1000 (Int 2) (f64.of_int 1)) = false ->
   Get 1003 (store after_hello_bye) "bye" = Some (Ok (Int 2))) /\
  (f64.of_int 1 = f64.of_int (int64_sub 1003 1000) ->
   expired 1003 (NewShardEntry 1000 (Int 2) (f64.of_int 1)) = false) /\
  step refjson.Marshal after_hello_bye (OpGet 1003 "bye") = Some after_hello_bye.
Proof.
  apply (Get_expiry refjson.Marshal after_hello_bye 1003 "bye"
           (NewShardEntry 1000 (Int 2) (f64.of_int 1))).
  vm_compute. reflexivity.
Defined.

Lemma findShard_routing_witness :
  (exists i, findShard (NewKVStore 3 test_dir) "hey" = Some i /\
     findShard (NewKVStore 3 ".quache/") "hey" = Some i /\
     (i < length (Shards (NewKVStore 3 test_dir)))%nat /\
     Z.of_nat i = crc32.ChecksumIEEE "hey"
                  mod Z.of_nat (length (Shards (NewKVStore 3 test_dir)))) /\
  findShard (NewKVStore 3 test_dir) "notthekindofthingyouwouldfind" = Some 0%nat /\
  findShard (NewKVStore 3 test_dir) "thisisaverylongkey" = Some 1%nat /\
  findShard (NewKVStore 3 test_dir) "this is an interesting key" = Some 2%nat.
Proof.
  apply (findShard_routing (NewKVStore 3 test_dir) (NewKVStore 3 ".quache/") "hey" test_dir).
  - vm_compute. lia.
  - vm_compute. reflexivity.
Defined.











Lemma ToDisk_change_detection_witness :
  (forall kv' fs' j s',
      Shards kv' !! j = Some s' -> shardDimensions kv' !!! j = getLength s' ->
      fs_files (ToDisk refjson.Marshal kv' fs').1.2 !! file_of (Directory kv') j
      = fs_files fs' !! file_of (Directory kv') j /\
      shardDimensions (ToDisk refjson.Marshal kv' fs').1.1 !!! j
      = shardDimensions kv' !!! j) /\
  (exists body, refjson.Marshal (Data hey_shard) = inr body /\
     fs_files hey_ToDisk.1.2 !! file_of (Directory after_hey) 2 = Some (snapshot body)) /\
  ToDisk refjson.Marshal hey_ToDisk.1.1 hey_ToDisk.1.2
  = (hey_ToDisk.1.1, hey_ToDisk.1.2, None) /\
  ToDisk refjson.Marshal hey_updated hey_ToDisk.1.2 = (hey_updated, hey_ToDisk.1.2, None).
Proof.
  apply (ToDisk_change_detection refjson.Marshal (store test_world) after_hey
           hey_ToDisk.1.1 hey_updated test_fs hey_ToDisk.1.2 1000 2000 "hey"
           (Int 4) (Int 5) None None 2 hey_shard).
  - vm_compute. reflexivity.
  - vm_compute. reflexivity.
  - vm_compute. reflexivity.
  - vm_compute. discriminate.
  - vm_compute. reflexivity.
  - vm_compute. reflexivity.
Defined.

Lemma ToDisk_records_length_of_failed_flush_witness :
  exists kv1,
    ToDisk refjson.Marshal after_hey no_dir_fs
    = (kv1, no_dir_fs, Some (errorString "no such file or directory")) /\
    Shards kv1 = Shards after_hey /\ Directory kv1 = Directory after_hey /\
    shardDimensions kv1 !!! 2%nat = getLength hey_shard /\
    fs_files (ToDisk refjson.Marshal kv1 test_fs).1.2 !! file_of (Directory after_hey) 2
    = fs_files test_fs !! file_of (Directory after_hey) 2.
Proof.
  apply (ToDisk_records_length_of_failed_flush refjson.Marshal after_hey no_dir_fs test_fs
           2 hey_shard (errorString "no such file or directory")).
  - vm_compute. reflexivity.
  - intros j s' Hj Hs. destruct j as [|[|j]]; [| |lia];
      vm_compute in Hs; injection Hs as <-; vm_compute; reflexivity.
  - vm_compute. discriminate.
  - vm_compute. reflexivity.
Defined.


Lemma nonpositive_ttl_never_expires_witness :
  let e := NewShardEntry 1000 (Int 1) (f64.mul (f64.of_int (-5)) (f64.of_int 1000)) in
  f64.leb (Ttl e) f64.zero = true /\
  entry_of (store after_negative_ttl) "hello" = Some e /\
  exists w2, run refjson.Marshal after_negative_ttl other_ops = Some w2 /\
    Get 99999 (store w2) "hello" = Some (Ok (Int 1)) /\
    entry_of (Cleanup (fun _ => 99999) (store w2)) "hello" = Some e /\
    forall i s, findShard (store w2) "hello" = Some i -> Shards (store w2) !! i = Some s ->
      Data (Evict 99999 s) !! "hello" = Some e.
Proof.
  apply (nonpositive_ttl_never_expires refjson.Marshal test_world after_negative_ttl
           1000 99999 99999 "hello" (Int 1) (f64.of_int (-5)) other_ops (fun _ => 99999)).
  - vm_compute. reflexivity.
  - vm_compute. reflexivity.
  - repeat constructor.
Defined.

(** * Further scenarios *)

(** ["bye"] deleted from the store of [TestGet]. *)
Definition after_delete_bye : KVStore :=
  default (store after_hello_bye) (Delete (store after_hello_bye) "bye").

(** ["hello"] with a time to live of two seconds. *)
Definition after_two_seconds : KVStore :=
  default (store test_world)
    (Put 1000 (store test_world) "hello" (Int 1) (Some (f64.of_int 2))).

(** The file that [Flush] writes for the shard of ["hey"]. *)
Definition hey_flushed : FS :=
  match Flush refjson.Marshal hey_shard (file_of test_dir 2) test_fs with
  | Ok fs => fs
  | Err _ => test_fs
  end.

(** The store loaded from the snapshots of the four [Put]s. *)
Definition reloaded : KVStore :=
  match NewKVStoreFromDisk refjson.Unmarshal 3 test_dir after_ToDisk.1.2 with
  | Ok kv => kv
  | Err _ => store test_world
  end.

(** The answers of [os.Stat] and [os.ReadFile] when the name of the
    directory is the name of a regular file: no name below it is reported
    missing, and none can be read. *)
Definition not_a_directory_Stat (name : string * string) : bool := false.

Definition not_a_directory_ReadFile (name : string * string) : string + string :=
  inl ("open " +:+ name.1 +:+ name.2 +:+ ": not a directory").

(** The answers when no file exists. *)
Definition missing_Stat (name : string * string) : bool := true.

Definition missing_ReadFile (name : string * string) : string + string :=
  inl ("open " +:+ name.1 +:+ name.2 +:+ ": no such file or directory").

(** The pass over the store of ["hey"] on a disk without the directory. *)
Definition hey_failed : KVStore * FS * option error :=
  ToDisk refjson.Marshal after_hey no_dir_fs.




(** A decoder for bodies of the form [{"key":<string>,"value":<value>}],
    a serializer of [GetResponse], and [%f] on whole numbers, on the
    reference codec. *)
Definition test_Decode (body : string) : string + server.SetRequest :=
  let parsed :=
    rest ← refjson.skip ("{" +:+ refjson.quote +:+ "key" +:+ refjson.quote +:+ ":") body;
    '(k, rest) ← refjson.read_string rest;
    rest ← refjson.skip ("," +:+ refjson.quote +:+ "value" +:+ refjson.quote +:+ ":") rest;
    '(v, rest) ← refjson.read_any rest;
    _ ← refjson.skip "}" rest;
    Some {| server.Key := k; server.Value := v; server.Ttl := None |} in
  match parsed with
  | Some req => inr req
  | None => inl refjson.syntax_error
  end.

Definition test_Marshal_response (v : any) : string + string :=
  match refjson.encode_any v with
  | Some t => inr ("{" +:+ refjson.quote +:+ "value" +:+ refjson.quote +:+ ":" +:+ t +:+ "}")
  | None => inl refjson.unsupported
  end.

Definition test_fmt_f (f : float64) : string :=
  match refjson.float_int f with
  | Some n => pretty n +:+ ".000000"
  | None => refjson.unsupported
  end.

Definition post_body (key : string) : string :=
  "{" +:+ refjson.quote +:+ "key" +:+ refjson.quote +:+ ":"
  +:+ refjson.quote +:+ key +:+ refjson.quote
  +:+ "," +:+ refjson.quote +:+ "value" +:+ refjson.quote +:+ ":1}".

Definition post_request (key : string) : server.SetRequest :=
  {| server.Key := key; server.Value := Float64 (f64.of_int 1); server.Ttl := None |}.

Definition after_post (key : string) : KVStore :=
  match server.handlePost test_Decode 1000 (store test_world) (post_body key) with
  | Some (kv, _) => kv
  | None => store test_world
  end.

Lemma Put_shard_lengths_witness :
  exists i s s',
    findShard (store test_world) "hey" = Some i /\
    Shards (store test_world) !! i = Some s /\ Shards after_hey !! i = Some s' /\
    Data s' = <["hey" := NewShardEntry 1000 (Int 4) (stored_ttl None)]> (Data s) /\
    getLength s' = (if Data s !! "hey" is Some _ then getLength s else S (getLength s)) /\
    (forall j, j <> i -> Shards after_hey !! j = Shards (store test_world) !! j) /\
    length (Shards after_hey) = length (Shards (store test_world)) /\
    shardDimensions after_hey = shardDimensions (store test_world) /\
    Directory after_hey = Directory (store test_world).
Proof.
  apply (Put_shard_lengths 1000 (store test_world) after_hey "hey" (Int 4) None).
  vm_compute. reflexivity.
Defined.

Lemma Get_at_Put_time_witness :
  Get 990 (store after_hello_bye) "bye" = Some (Ok (Int 2)) /\
  Get 1000 (store after_hello_bye) "bye" = Some (Ok (Int 2)).
Proof.
  apply (Get_at_Put_time 1000 990 (store after_hello) (store after_hello_bye) "bye"
           (Int 2) (Some ttl_1ms)).
  - vm_compute. reflexivity.
  - vm_compute. discriminate.
Defined.

Lemma Delete_Get_witness :
  Get 1003 after_delete_bye "bye" = Some (Err (KeyNotFoundError "bye")) /\
  (forall key', key' <> "bye" ->
     entry_of after_delete_bye key' = entry_of (store after_hello_bye) key') /\
  (entry_of (store after_hello_bye) "bye" = None -> after_delete_bye = store after_hello_bye).
Proof.
  apply (Delete_Get 1003 (store after_hello_bye) after_delete_bye "bye").
  vm_compute. reflexivity.
Defined.

Lemma expired_until_Cleanup_witness :
  Get 1003 (store after_hello_bye) "bye"
  = Some (Err (ExpiredEntryError "bye"
                 (int64_sub 1003 (Timestamp (NewShardEntry 1000 (Int 2) (f64.of_int 1))))
                 (Ttl (NewShardEntry 1000 (Int 2) (f64.of_int 1))))) /\
  Get 2000 (Cleanup (fun _ => 1003) (store after_hello_bye)) "bye"
  = Some (Err (KeyNotFoundError "bye")).
Proof.
  apply (expired_until_Cleanup (store after_hello_bye) 2000 "bye"
           (NewShardEntry 1000 (Int 2) (f64.of_int 1)) 2 (fun _ => 1003)).
  - vm_compute. reflexivity.
  - vm_compute. reflexivity.
  - vm_compute. reflexivity.
Defined.

Lemma stored_keys_are_routed_witness :
  (forall i s key e,
     Shards (store after_puts) !! i = Some s -> Data s !! key = Some e ->
     findShard (store after_puts) key = Some i /\ entry_of (store after_puts) key = Some e) /\
  (forall i j s s' key,
     Shards (store after_puts) !! i = Some s -> Shards (store after_puts) !! j = Some s' ->
     is_Some (Data s !! key) -> is_Some (Data s' !! key) -> i = j).
Proof.
  apply (stored_keys_are_routed refjson.Marshal 3 test_dir test_fs test_puts after_puts).
  vm_compute. reflexivity.
Defined.

Lemma Get_expiry_whole_milliseconds_witness :
  Get 1003 (store after_hello_bye) "bye"
  = Some (if (0 <? 1) && (1 <? 1003 - Timestamp (NewShardEntry 1000 (Int 2) (f64.of_int 1)))
          then Err (ExpiredEntryError "bye"
                      (1003 - Timestamp (NewShardEntry 1000 (Int 2) (f64.of_int 1)))
                      (f64.of_int 1))
          else Ok (Value (NewShardEntry 1000 (Int 2) (f64.of_int 1)))).
Proof.
  apply (Get_expiry_whole_milliseconds 1003 (store after_hello_bye) "bye"
           (NewShardEntry 1000 (Int 2) (f64.of_int 1)) 1).
  - vm_compute. reflexivity.
  - reflexivity.
  - vm_compute. reflexivity.
  - vm_compute. reflexivity.
Defined.

Lemma Put_whole_seconds_witness :
  entry_of after_two_seconds "hello"
  = Some (NewShardEntry 1000 (Int 1) (f64.of_int (1000 * 2))) /\
  Get 3001 after_two_seconds "hello"
  = Some (if (0 <? 2) && (1000 * 2 <? 3001 - 1000)
          then Err (ExpiredEntryError "hello" (3001 - 1000) (f64.of_int (1000 * 2)))
          else Ok (Int 1)).
Proof.
  apply (Put_whole_seconds 1000 3001 (store test_world) after_two_seconds "hello" (Int 1) 2).
  - vm_compute. reflexivity.
  - vm_compute. reflexivity.
  - vm_compute. reflexivity.
Defined.

Lemma reader_recovers_body_and_digest_witness :
  strings_Join (strings_Split ("{" +:+ String nl "}")) = "{" +:+ String nl "}" /\
  default EmptyString
    (last (strings_Split (("{" +:+ String nl "}") +:+ String nl "00ff"))) = "00ff" /\
  strings_Join
    (take (length (strings_Split (("{" +:+ String nl "}") +:+ String nl "00ff")) - 1)
       (strings_Split (("{" +:+ String nl "}") +:+ String nl "00ff")))
  = "{" +:+ String nl "}".
Proof.
  apply (reader_recovers_body_and_digest ("{" +:+ String nl "}") "00ff").
  vm_compute. repeat split; discriminate.
Defined.

Lemma Flush_snapshot_layout_witness :
  exists body digest,
    refjson.Marshal (Data hey_shard) = inr body /\
    fs_files hey_flushed !! file_of test_dir 2 = Some (body +:+ String nl digest) /\
    hex.DecodeString digest = inr (md5.Sum body) /\
    String.length digest = 32%nat /\
    Forall (fun c => c ∈ String.list_ascii_of_string "0123456789abcdef")
           (String.list_ascii_of_string digest) /\
    (file_of test_dir 2).1 ∈ fs_dirs test_fs /\ fs_dirs hey_flushed = fs_dirs test_fs /\
    forall g, g <> file_of test_dir 2 -> fs_files hey_flushed !! g = fs_files test_fs !! g.
Proof.
  apply (Flush_snapshot_layout refjson.Marshal hey_shard (file_of test_dir 2) test_fs
           hey_flushed).
  - vm_compute. reflexivity.
  - vm_compute. discriminate.
Defined.

Lemma loaded_store_is_checked_and_clean_witness :
  length (Shards reloaded) = 3%nat /\ Directory reloaded = test_dir /\
  (forall i s, Shards reloaded !! i = Some s ->
     accepts refjson.Unmarshal after_ToDisk.1.2 test_dir i (Data s) /\
     shardDimensions reloaded !!! i = getLength s) /\
  forall fs', ToDisk refjson.Marshal reloaded fs' = (reloaded, fs', None).
Proof.
  apply (loaded_store_is_checked_and_clean refjson.Marshal refjson.Unmarshal 3 test_dir
           after_ToDisk.1.2 reloaded).
  vm_compute. reflexivity.
Defined.

Lemma load_error_names_first_bad_shard_witness :
  exists i msg, (i < 3)%nat /\
    UnloadableShardError 0 "open .quache-test/shard-0: not a directory"
    = UnloadableShardError i msg /\
    shard_fails refjson.Unmarshal not_a_directory_Stat not_a_directory_ReadFile
      test_dir i msg /\
    forall j, (j < i)%nat ->
      exists data,
        shard_loads refjson.Unmarshal not_a_directory_Stat not_a_directory_ReadFile
          test_dir j data.
Proof.
  apply (load_error_names_first_bad_shard refjson.Unmarshal not_a_directory_Stat
           not_a_directory_ReadFile 3 test_dir
           (UnloadableShardError 0 "open .quache-test/shard-0: not a directory")).
  vm_compute. reflexivity.
Defined.

Lemma load_without_snapshots_is_NewKVStore_witness :
  NewKVStoreFromDisk_io refjson.Unmarshal missing_Stat missing_ReadFile 3 test_dir
  = Ok (NewKVStore 3 test_dir).
Proof.
  apply (load_without_snapshots_is_NewKVStore refjson.Unmarshal missing_Stat
           missing_ReadFile 3 test_dir).
  intros i Hi. reflexivity.
Defined.

Lemma ToDisk_stops_at_first_failure_witness :
  exists k s, Shards after_hey !! k = Some s /\ getLength s <> 0%nat /\
    shardDimensions after_hey !!! k <> getLength s /\
    (exists fs0,
       Flush refjson.Marshal s (file_of (Directory after_hey) k) fs0
       = Err (default (errorString EmptyString) hey_failed.2)) /\
    shardDimensions hey_failed.1.1 !!! k = getLength s /\
    (forall j s', (j < k)%nat -> Shards after_hey !! j = Some s' ->
       shardDimensions hey_failed.1.1 !!! j = getLength s' /\
       (shardDimensions after_hey !!! j <> getLength s' -> getLength s' <> 0%nat ->
        exists body, refjson.Marshal (Data s') = inr body /\
          fs_files hey_failed.1.2 !! file_of (Directory after_hey) j
          = Some (snapshot body))) /\
    (forall j, (k < j)%nat ->
       shardDimensions hey_failed.1.1 !!! j = shardDimensions after_hey !!! j /\
       fs_files hey_failed.1.2 !! file_of (Directory after_hey) j
       = fs_files no_dir_fs !! file_of (Directory after_hey) j).
Proof.
  apply (ToDisk_stops_at_first_failure refjson.Marshal after_hey hey_failed.1.1
           no_dir_fs hey_failed.1.2 (default (errorString EmptyString) hey_failed.2)).
  vm_compute. reflexivity.
Defined.




Lemma run_never_panics_witness :
  exists w, run refjson.Marshal {| store := NewKVStore 3 test_dir; disk := no_dir_fs |}
              (test_puts ++ other_ops) = Some w /\
    length (Shards (store w)) = 3%nat /\ Directory (store w) = test_dir /\
    fs_dirs (disk w) = fs_dirs no_dir_fs.
Proof.
  apply (run_never_panics refjson.Marshal 3 test_dir no_dir_fs (test_puts ++ other_ops)).
  lia.
Defined.

Lemma GET_answers_witness :
  server.handleGet test_Marshal_response test_fmt_f 1003 (store after_hello_bye) "bye" =
  Some match entry_of (store after_hello_bye) "bye" with
       | None =>
           [server.http_Error ("Key " +:+ "bye" +:+ " not found") server.StatusNotFound]
       | Some e =>
           if expired 1003 e
           then [server.http_Error
                   (Error test_fmt_f
                      (ExpiredEntryError "bye" (int64_sub 1003 (Timestamp e)) (Ttl e)))
                   server.StatusNotFound]
           else server.Header_Set "Content-Type" "application/json" ::
                match test_Marshal_response (Value e) with
                | inl err =>
                    [server.http_Error err server.StatusInternalServerError;
                     server.WriteHeader server.StatusOK; server.Write EmptyString]
                | inr j => [server.WriteHeader server.StatusOK; server.Write j]
                end
       end /\
  forall key1 key2 elapsed ttl,
    Error test_fmt_f (KeyNotFoundError key1)
    <> Error test_fmt_f (ExpiredEntryError key2 elapsed ttl).
Proof.
  apply (GET_answers test_Marshal_response test_fmt_f 1003 (store after_hello_bye) "bye").
  - vm_compute. reflexivity.
  - vm_compute. lia.
Defined.

Lemma POST_then_GET_witness :
  [server.WriteHeader server.StatusCreated] = [server.WriteHeader server.StatusCreated] /\
  entry_of (after_post "hello") (server.Key (post_request "hello"))
  = Some (NewShardEntry 1000 (server.Value (post_request "hello"))
            (stored_ttl (server.Ttl (post_request "hello")))) /\
  server.handleGet test_Marshal_response test_fmt_f 99999 (after_post "hello")
    (server.Key (post_request "hello")) =
  Some (if expired 99999
             (NewShardEntry 1000 (server.Value (post_request "hello"))
                (stored_ttl (server.Ttl (post_request "hello"))))
        then [server.http_Error
                (Error test_fmt_f
                   (ExpiredEntryError (server.Key (post_request "hello"))
                      (int64_sub 99999 1000) (stored_ttl (server.Ttl (post_request "hello")))))
                server.StatusNotFound]
        else server.Header_Set "Content-Type" "application/json" ::
             match test_Marshal_response (server.Value (post_request "hello")) with
             | inl err =>
                 [server.http_Error err server.StatusInternalServerError;
                  server.WriteHeader server.StatusOK; server.Write EmptyString]
             | inr j => [server.WriteHeader server.StatusOK; server.Write j]
             end) /\
  (server.Ttl (post_request "hello") = None \/ int64_sub 99999 1000 <= 0 ->
   expired 99999
     (NewShardEntry 1000 (server.Value (post_request "hello"))
        (stored_ttl (server.Ttl (post_request "hello")))) = false).
Proof.
  apply (POST_then_GET test_Decode test_Marshal_response test_fmt_f 1000 99999
           (store test_world) (after_post "hello") (post_body "hello")
           (post_request "hello") [server.WriteHeader server.StatusCreated]).
  - vm_compute. reflexivity.
  - vm_compute. reflexivity.
  - vm_compute. reflexivity.
Defined.

Lemma blank_key_is_stored_but_never_served_witness :
  [server.WriteHeader server.StatusCreated] = [server.WriteHeader server.StatusCreated] /\
  entry_of (after_post " ") (server.Key (post_request " "))
  = Some (NewShardEntry 1000 (server.Value (post_request " "))
            (stored_ttl (server.Ttl (post_request " ")))) /\
  (forall now' kv2,
     server.handleGet test_Marshal_response test_fmt_f now' kv2 (server.Key (post_request " "))
     = Some [server.http_Error server.empty_key server.StatusBadRequest]) /\
  (server.Key (post_request " ") <> EmptyString ->
   exists kv2,
     server.handleDelete (after_post " ") (server.Key (post_request " "))
     = Some (kv2, [server.WriteHeader server.StatusNoContent]) /\
     entry_of kv2 (server.Key (post_request " ")) = None) /\
  (server.Key (post_request " ") = EmptyString ->
   server.handleDelete (after_post " ") (server.Key (post_request " "))
   = Some (after_post " ", [server.http_Error server.empty_key server.StatusBadRequest])).
Proof.
  apply (blank_key_is_stored_but_never_served test_Decode test_Marshal_response test_fmt_f
           1000 (store test_world) (after_post " ") (post_body " ") (post_request " ")
           [server.WriteHeader server.StatusCreated]).
  - vm_compute. reflexivity.
  - vm_compute. reflexivity.
  - vm_compute. reflexivity.
Defined.

Lemma DELETE_answers_204_witness :
  exists kv',
    server.handleDelete (store after_hello_bye) "bye"
    = Some (kv', [server.WriteHeader server.StatusNoContent]) /\
    entry_of kv' "bye" = None /\
    (forall key', key' <> "bye" -> entry_of kv' key' = entry_of (store after_hello_bye) key') /\
    server.handleDelete kv' "bye" = Some (kv', [server.WriteHeader server.StatusNoContent]).
Proof.
  apply (DELETE_answers_204 (store after_hello_bye) "bye").
  - discriminate.
  - vm_compute. lia.
Defined.

(** The workers at the default interval of the flush worker, over the store
    of the four [Put]s: two ticks, the signal, and a tick that comes too
    late. *)
Definition flush_events : list (event unit) :=
  [ticker_C tt; ticker_C tt; done_signal; ticker_C tt].

Definition cleanup_events : list (event (nat -> Z)) :=
  [ticker_C (fun _ => 1003); ctx_Done; ticker_C (fun _ => 2000)].

Lemma workers_run_their_ticks_witness :
  (exists w' log,
     ToDiskWorker refjson.Marshal test_fmt_f after_puts 1000 flush_events
     = Some (w', log, stops flush_events) /\
     run refjson.Marshal after_puts ((fun _ => OpToDisk) <$> ticks flush_events) = Some w' /\
     Shards (store w') = Shards (store after_puts) /\
     Directory (store w') = Directory (store after_puts)) /\
  (exists w' log,
     CleanupWorker after_puts 1000 cleanup_events = Some (w', log, stops cleanup_events) /\
     run refjson.Marshal after_puts (OpCleanup <$> ticks cleanup_events) = Some w' /\
     disk w' = disk after_puts /\
     shardDimensions (store w') = shardDimensions (store after_puts) /\
     Directory (store w') = Directory (store after_puts)).
Proof.
  apply (workers_run_their_ticks refjson.Marshal test_fmt_f after_puts 1000
           flush_events cleanup_events).
  vm_compute. reflexivity.
Defined.
